(** * stategate: the transition engine of [src/index.ts]

    A shallow embedding of the [StateMachine] class ([src/index.ts]), of the
    two error classes of [src/errors.ts] and of the records of
    [src/types.ts], followed by the properties of the engine.

    Conventions of the embedding.
    - A JavaScript object used as a record or as a map is a finite map over
      its own properties; the properties that every object inherits from
      [Object.prototype] are not modelled.  An entity is such an object and
      holds plain data, which [structuredClone] accepts.  It lives in a
      store of objects and is designated by a location: the caller, the
      hooks and the engine all reach the same object through that location.
    - The caller's configuration designates its transitions record by a
      location too; the engine keeps that location.  The hooks act on the
      entities, not on the configuration.
    - A hook is caller code.  It is a function from the world it runs in to
      the world it leaves, the lines it printed on the console, and the error
      it raised, if any.  An asynchronous hook runs to completion when it is
      called; [await] of a rejected promise raises the rejection.
    - The engine keeps a trace of what it did: every hook invocation with
      its arguments, its own write of the state field, the rebinding of its
      local variable, its own console output.  The trace is how the order of
      the calls is stated.
    - The [on]/[emit] listener registry of the class is never used by
      [transition]: it is modelled on its own ([Registry]), as the object
      that the [handlers] field holds. *)

From stdpp Require Import gmap strings list fin_maps pretty.

Local Open Scope string_scope.
Local Open Scope list_scope.
Set Warnings "-register-all".

(** ** Values and entities *)

(** The data an entity field can hold ([VNum]: an integer). *)
Inductive value :=
  | VUndef
  | VNull
  | VBool (b : bool)
  | VNum (n : Z)
  | VStr (s : string)
  | VArr (items : list value)
  | VObj (props : list (string * value)).

Abbreviation entity := (gmap string value).
Abbreviation loc := nat.

(** [structuredClone]: a deep, structural copy.  Every node of the value is
    rebuilt. *)
Fixpoint clone_value (v : value) : value :=
  match v with
  | VArr items => VArr (map clone_value items)
  | VObj props => VObj (map (λ kv, (kv.1, clone_value kv.2)) props)
  | _ => v
  end.

Definition structuredClone (e : entity) : entity := clone_value <$> e.

(** String conversion of a value used as a property key
    ([table[currentState]]). *)
Fixpoint to_property_key (v : value) : string :=
  match v with
  | VUndef => "undefined"
  | VNull => "null"
  | VBool true => "true"
  | VBool false => "false"
  | VNum n => pretty n
  | VStr s => s
  | VArr items =>
      String.concat ","
        (map (λ x, match x with
                   | VUndef | VNull => ""
                   | _ => to_property_key x
                   end) items)
  | VObj _ => "[object Object]"
  end.

(** [v !== s] for a string [s]: strict inequality. *)
Definition strict_ne (v : value) (s : string) : bool :=
  match v with
  | VStr s' => negb (bool_decide (s' = s))
  | _ => true
  end.

(** ** Payloads and errors ([src/types.ts], [src/errors.ts]) *)

(** The [context] argument of [transition]. *)
Record Context := {
  actor : option string;
  meta : option value;
}.

Record TransitionParams := {
  tp_from : option value;
  tp_to : option string;
  tp_message : option string;
  tp_timestamp : option nat;
  tp_meta : option (option Context);
}.

Record TransitionPayload := {
  p_from : value;
  p_to : string;
  p_actor : option string;
  p_meta : option value;
  p_timestamp : nat;
}.

(** The object built in the catch block for [onInvalidTransition], [onAbort]
    and [onError]: [{from, to, message, timestamp, meta: context}]. *)
Record ErrorPayload := {
  ep_from : value;
  ep_to : string;
  ep_message : string;
  ep_timestamp : nat;
  ep_meta : option Context;
}.

(** What can be thrown.  [OtherError] stands for every error that is an
    instance of neither class ([Error], [TypeError], ...). *)
Inductive error :=
  | AbortTransition (message : string) (details : TransitionParams)
  | InvalidTransition (message : string) (details : TransitionParams)
  | OtherError (name message : string).

Definition error_message (e : error) : string :=
  match e with
  | AbortTransition m _ | InvalidTransition m _ | OtherError _ m => m
  end.

Definition instanceof_AbortTransition (e : error) : bool :=
  match e with AbortTransition _ _ => true | _ => false end.

Definition instanceof_InvalidTransition (e : error) : bool :=
  match e with InvalidTransition _ _ => true | _ => false end.

(** [s || d] and [s ? s : d] on strings: the empty string is falsy. *)
Definition or_default (s d : string) : string :=
  if bool_decide (s = "") then d else s.

(** [details = { timestamp: params.timestamp ?? new Date(), ...params }] *)
Definition new_details (params : TransitionParams) (now : nat) : TransitionParams :=
  {| tp_from := tp_from params;
     tp_to := tp_to params;
     tp_message := tp_message params;
     tp_timestamp := Some (default now (tp_timestamp params));
     tp_meta := tp_meta params |}.

Definition new_AbortTransition (params : TransitionParams) (now : nat) : error :=
  AbortTransition (or_default (default "" (tp_message params)) "Aborting transition")
                  (new_details params now).

Definition new_InvalidTransition (params : TransitionParams) (now : nat) : error :=
  InvalidTransition (or_default (default "" (tp_message params)) "Invalid transition")
                    (new_details params now).

Definition TypeError (message : string) : error := OtherError "TypeError" message.
Definition Error (message : string) : error := OtherError "Error" message.

(** ** Hooks *)

(** What a hook can see and change: the objects of the program and the
    clock that [new Date()] reads. *)
Record world := World {
  objs : gmap loc entity;
  clock : nat;
}.

Record result := Result {
  res_world : world;
  res_out : list string;
  res_err : option error;
}.

Definition effect := world → result.

(** A hook that does nothing. *)
Definition noop : effect := λ w, Result w [] None.

Definition EventHandler := loc → effect.
Definition TransitionHandler := TransitionPayload → effect.
Definition AbortHandler := ErrorPayload → effect.
Definition InvalidTransitionHandler := ErrorPayload → effect.
Definition ErrorTransitionHandler := error → ErrorPayload → effect.

Record Details := {
  label : string;
  description : string;
  allowedActors : string;
}.

Record TransitionConfig := {
  isAbortable : option bool;
  onBefore : option EventHandler;
  onAbort : option AbortHandler;
  onAfter : option EventHandler;
  details : option Details;
}.

Record GlobalHooks := {
  beforeTransition : option (list TransitionHandler);
  afterTransition : option (list TransitionHandler);
  onInvalidTransition : option InvalidTransitionHandler;
  onError : option ErrorTransitionHandler;
}.

Abbreviation row := (gmap string TransitionConfig).
Abbreviation table := (gmap string (gmap string TransitionConfig)).

(** The caller's configuration object.  [transitions] is a reference: the
    record it designates lives in the store of transition records. *)
Record MachineConfig := {
  initialState : string;
  stateKey : option string;
  transitions : loc;
  globalHooks : option GlobalHooks;
}.

Record NormalizedMachineconfig := {
  nc_initialState : string;
  nc_stateKey : string;
  nc_transitions : loc;
  nc_globalHooks : option GlobalHooks;
}.

Record StateMachine := {
  config : NormalizedMachineconfig;
}.

(** ** The engine's monad: state and exceptions *)

(** What the engine did, in order. *)
Inductive event :=
  | Called_onBefore (entity : loc)
  | Called_beforeTransition (i : nat) (payload : TransitionPayload)
  | Wrote (entity : loc) (key : string) (v : value)
  | Called_onAfter (entity : loc)
  | Called_afterTransition (i : nat) (payload : TransitionPayload)
  | Called_onInvalidTransition (payload : ErrorPayload)
  | Rebound (clone : entity)
  | Called_onAbort (payload : ErrorPayload)
  | Called_onError (e : error) (payload : ErrorPayload)
  | Console (line : string) (arg : option error).

Record state := State {
  st_world : world;
  st_tables : gmap loc table;
  st_trace : list event;
}.

Inductive res (A : Type) :=
  | Ok (a : A)
  | Throw (e : error).
Arguments Ok {A} a.
Arguments Throw {A} e.

Definition M (A : Type) : Type := state → res A * state.

Definition ret {A} (a : A) : M A := λ st, (Ok a, st).

Definition bind {A B} (m : M A) (k : A → M B) : M B :=
  λ st, match m st with
        | (Ok a, st') => k a st'
        | (Throw e, st') => (Throw e, st')
        end.

Definition throw {A} (e : error) : M A := λ st, (Throw e, st).

(** [try { body } catch (e) { handler }] *)
Definition try_catch {A} (body : M A) (handler : error → M A) : M A :=
  λ st, match body st with
        | (Ok a, st') => (Ok a, st')
        | (Throw e, st') => handler e st'
        end.

Notation "'let*' x := m 'in' k" := (bind m (λ x, k))
  (at level 10, x name, m at level 100, k at level 200).
Notation "m ;; k" := (bind m (λ _, k))
  (at level 100, k at level 200, right associativity).

Definition emit (ev : event) : M unit :=
  λ st, (Ok (), State (st_world st) (st_tables st) (st_trace st ++ [ev])).

(** [new Date()] *)
Definition new_Date : M nat := λ st, (Ok (clock (st_world st)), st).

(** A reference always designates an object; a location that holds none
    reads as the empty object. *)
Definition read_obj (l : loc) : M entity :=
  λ st, (Ok (objs (st_world st) !!! l), st).

(** [entity[key]] *)
Definition get_prop (l : loc) (key : string) : M value :=
  let* e := read_obj l in ret (default VUndef (e !! key)).

Definition set_field (l : loc) (key : string) (v : value) (w : world) : world :=
  World (<[l := <[key := v]> (objs w !!! l)]> (objs w)) (clock w).

(** [entity[key] = v] *)
Definition set_prop (l : loc) (key : string) (v : value) : M unit :=
  λ st, (Ok (), State (set_field l key v (st_world st)) (st_tables st)
                      (st_trace st ++ [Wrote l key v])).

Definition read_table (r : loc) : M table :=
  λ st, (Ok (st_tables st !!! r), st).

(** [console.log(line, arg)] *)
Definition console_log (line : string) (arg : option error) : M unit :=
  emit (Console line arg).

(** Calling a hook: the call is recorded, the hook runs, its console lines
    follow, and its error, if any, is raised. *)
Definition call (ev : event) (f : effect) : M unit :=
  λ st,
    let r := f (st_world st) in
    (match res_err r with Some e => Throw e | None => Ok () end,
     State (res_world r) (st_tables st)
           (st_trace st ++ ev :: map (λ s, Console s None) (res_out r))).

(** [await Promise.all(hooks.map((fn) => fn(payload)))]: [map] calls every
    hook in array order, whatever the earlier ones did; the first rejection
    is the one raised. *)
Fixpoint Promise_all (mk : nat → event) (i : nat) (hooks : list effect) : M unit :=
  match hooks with
  | [] => ret ()
  | fn :: rest =>
      λ st, match call (mk i) fn st with
            | (r1, st1) =>
                match Promise_all mk (S i) rest st1 with
                | (r2, st2) =>
                    (match r1 with Throw e => Throw e | Ok _ => r2 end, st2)
                end
            end
  end.

(** [f && (await f(entity))] *)
Definition call_opt (ev : event) (f : option effect) : M unit :=
  match f with
  | Some f => call ev f
  | None => ret ()
  end.

(** ** [StateMachine] *)

Definition truthy (b : option bool) : bool := default false b.

(** The handler that the constructor installs:
    [() => { console.log(`Aborting transition from ${tK} to ${nS}`) }] *)
Definition default_onAbort (tK nS : string) : AbortHandler :=
  λ _ w, Result w ["Aborting transition from " +:+ tK +:+ " to " +:+ nS] None.

Definition set_onAbort (f : AbortHandler) (t : TransitionConfig) : TransitionConfig :=
  {| isAbortable := isAbortable t;
     onBefore := onBefore t;
     onAbort := Some f;
     onAfter := onAfter t;
     details := details t |}.

(** [Object.keys(o)].  The order of the keys has no bearing on what the
    constructor computes ([normalize_visited] below). *)
Definition keys {A} (o : gmap string A) : list string := (map_to_list o).*1.

(** [t.isAbortable && !t.onAbort] *)
Definition lacks_onAbort (t : TransitionConfig) : bool :=
  truthy (isAbortable t) && negb (bool_decide (is_Some (onAbort t))).

(** The body of the inner [forEach]: one visit of the edge [tK → nS] of the
    transitions record. *)
Definition visit_edge (tK : string) (tbl : table) (nS : string) : table :=
  match tbl !! tK ≫= (.!! nS) with
  | Some t =>
      if lacks_onAbort t
      then alter (alter (set_onAbort (default_onAbort tK nS)) nS) tK tbl
      else tbl
  | None => tbl
  end.

(** The body of the outer [forEach]. *)
Definition visit_state (tbl : table) (tK : string) : table :=
  let nextStates := keys (tbl !!! tK) in
  foldl (visit_edge tK) tbl nextStates.

Definition normalize (tbl : table) : table :=
  let transitionKeys := keys tbl in
  foldl visit_state tbl transitionKeys.

(** [new StateMachine(config)].  The loops write into the record that
    [config.transitions] designates; [{...config}] copies the top-level
    fields only, so the engine keeps the same reference. *)
Definition constructor (config : MachineConfig) (tables : gmap loc table)
  : StateMachine * gmap loc table :=
  let tables' := <[transitions config := normalize (tables !!! transitions config)]> tables in
  ({| config := {| nc_initialState := initialState config;
                   nc_stateKey := default "status" (stateKey config);
                   nc_transitions := transitions config;
                   nc_globalHooks := globalHooks config |} |},
   tables').

Record PreTransitionParams := {
  pre_currentState : value;
  pre_allowedNextStates : row;
  pre_nextState : string;
  pre_nextTransition : option TransitionConfig;
  pre_entity : loc;
  pre_context : option Context;
}.

Record PostTransitionParams := {
  post_currentState : value;
  post_nextState : string;
  post_nextTransition : option TransitionConfig;
  post_entity : loc;
  post_stateKey : string;
  post_context : option Context;
}.

Definition undefined_read (prop : string) : error :=
  TypeError ("Cannot read properties of undefined (reading '" +:+ prop +:+ "')").

Definition transition_payload (currentState : value) (nextState : string)
    (context : option Context) (now : nat) : TransitionPayload :=
  {| p_from := currentState;
     p_to := nextState;
     p_actor := context ≫= actor;
     p_meta := context ≫= meta;
     p_timestamp := now |}.

Definition preTransition (this : StateMachine) (params : PreTransitionParams) : M unit :=
  let currentState := pre_currentState params in
  let nextState := pre_nextState params in
  let context := pre_context params in
  if negb (bool_decide (is_Some (pre_allowedNextStates params !! nextState))) then
    let* now := new_Date in
    throw (new_InvalidTransition
             {| tp_from := Some currentState;
                tp_to := Some nextState;
                tp_message := Some "Invalid Transaction";
                tp_timestamp := None;
                tp_meta := Some context |} now)
  else
    match pre_nextTransition params with
    | None => throw (undefined_read "onBefore")
    | Some nextTransition =>
        call_opt (Called_onBefore (pre_entity params))
                 ((λ f : EventHandler, f (pre_entity params)) <$> onBefore nextTransition) ;;
        let beforeTransitionHooks := nc_globalHooks (config this) ≫= beforeTransition in
        let* now := new_Date in
        let payload := transition_payload currentState nextState context now in
        let hooks := default [] beforeTransitionHooks in
        Promise_all (λ i, Called_beforeTransition i payload) 0
                    (map (λ fn : TransitionHandler, fn payload) hooks)
    end.

Definition postTransition (this : StateMachine) (params : PostTransitionParams) : M unit :=
  let currentState := post_currentState params in
  let nextState := post_nextState params in
  let context := post_context params in
  let* v := get_prop (post_entity params) (post_stateKey params) in
  if strict_ne v nextState then
    throw (Error "Transition failed or had incongurencies")
  else
    match post_nextTransition params with
    | None => throw (undefined_read "onAfter")
    | Some nextTransition =>
        call_opt (Called_onAfter (post_entity params))
                 ((λ f : EventHandler, f (post_entity params)) <$> onAfter nextTransition) ;;
        let afterTransitionHooks := nc_globalHooks (config this) ≫= afterTransition in
        let* now := new_Date in
        let payload := transition_payload currentState nextState context now in
        let hooks := default [] afterTransitionHooks in
        Promise_all (λ i, Called_afterTransition i payload) 0
                    (map (λ fn : TransitionHandler, fn payload) hooks)
    end.

Definition error_payload (currentState : value) (nextState : string)
    (message : string) (now : nat) (context : option Context) : ErrorPayload :=
  {| ep_from := currentState;
     ep_to := nextState;
     ep_message := message;
     ep_timestamp := now;
     ep_meta := context |}.

Definition skipped_notice : string :=
  "Abort Transition triggered but skipped over transition {isAbortable:false} ".

(** The [try] block of [transition]. *)
Definition transition_try (this : StateMachine) (entity : loc) (nextState : string)
    (context : option Context) (stateKey : string) (currentState : value)
    (allowedNextStates : row) (nextTransition : option TransitionConfig) : M unit :=
  preTransition this
    {| pre_currentState := currentState;
       pre_allowedNextStates := allowedNextStates;
       pre_nextState := nextState;
       pre_nextTransition := nextTransition;
       pre_entity := entity;
       pre_context := context |} ;;
  set_prop entity stateKey (VStr nextState) ;;
  postTransition this
    {| post_currentState := currentState;
       post_nextState := nextState;
       post_nextTransition := nextTransition;
       post_entity := entity;
       post_stateKey := stateKey;
       post_context := context |}.

(** The [catch] block of [transition], statement by statement. *)

(** [if (e instanceof InvalidTransition) { ... onInvalidTransition?.(payload) }] *)
Definition report_invalid (this : StateMachine) (nextState : string)
    (context : option Context) (currentState : value) (error : error) : M unit :=
  if instanceof_InvalidTransition error then
    let* now := new_Date in
    let invalidTransitionErrorPayload :=
      error_payload currentState nextState
        (or_default (error_message error) "Invalid transition.") now context in
    call_opt (Called_onInvalidTransition invalidTransitionErrorPayload)
             ((λ f : InvalidTransitionHandler, f invalidTransitionErrorPayload)
                <$> (nc_globalHooks (config this) ≫= onInvalidTransition))
  else ret ().

(** [if (nextTransition?.isAbortable && e instanceof AbortTransition) { ... }
    else { console.log(...) }].
    [entity = structuredClone(entitySnapshot)] assigns the local variable
    [entity]: it now designates a fresh object that nothing else reaches, and
    it is not read again; the store is not written. *)
Definition rollback_or_notice (nextState : string) (context : option Context)
    (currentState : value) (nextTransition : option TransitionConfig)
    (entitySnapshot : entity) (error : error) : M unit :=
  if truthy (nextTransition ≫= isAbortable) && instanceof_AbortTransition error then
    emit (Rebound (structuredClone entitySnapshot)) ;;
    let* now := new_Date in
    let abortTransitionErrorPayload :=
      error_payload currentState nextState
        (or_default (error_message error) "Aborting transition.") now context in
    call_opt (Called_onAbort abortTransitionErrorPayload)
             ((λ f : AbortHandler, f abortTransitionErrorPayload) <$> (nextTransition ≫= onAbort))
  else
    console_log skipped_notice (Some error).

(** [if (this.config.globalHooks?.onError) { ... onError(error, errorPaylaod) }] *)
Definition report_error (this : StateMachine) (nextState : string)
    (context : option Context) (currentState : value) (error : error) : M unit :=
  match nc_globalHooks (config this) ≫= onError with
  | Some onError =>
      let* now := new_Date in
      let errorPaylaod :=
        error_payload currentState nextState
          (or_default (error_message error) "Aborting transition.") now context in
      call (Called_onError error errorPaylaod) (onError error errorPaylaod)
  | None => ret ()
  end.

Definition transition_catch (this : StateMachine) (nextState : string)
    (context : option Context) (currentState : value)
    (nextTransition : option TransitionConfig) (entitySnapshot : entity)
    (error : error) : M unit :=
  report_invalid this nextState context currentState error ;;
  rollback_or_notice nextState context currentState nextTransition entitySnapshot error ;;
  report_error this nextState context currentState error.

Definition transition (this : StateMachine) (entity : loc) (nextState : string)
    (context : option Context) : M unit :=
  let stateKey := nc_stateKey (config this) in
  let* currentState := get_prop entity stateKey in
  let* transitions := read_table (nc_transitions (config this)) in
  match transitions !! to_property_key currentState with
  | None => throw (undefined_read nextState)
  | Some allowedNextStates =>
      let nextTransition := allowedNextStates !! nextState in
      let* entitySnapshot := (let* e := read_obj entity in ret (structuredClone e)) in
      try_catch
        (transition_try this entity nextState context stateKey currentState
                        allowedNextStates nextTransition)
        (transition_catch this nextState context currentState nextTransition
                          entitySnapshot)
  end.

(** A call of [transition] in the world [w], with the transition records
    [tables]: the outcome ([Ok]: the promise resolves; [Throw]: it rejects)
    and the state the call leaves, whose trace is what the call did. *)
Definition run_transition (this : StateMachine) (entity : loc) (nextState : string)
    (context : option Context) (w : world) (tables : gmap loc table)
  : res unit * state :=
  transition this entity nextState context (State w tables []).

(** ** The listener registry ([on], [emit])

    The [handlers] field of the instance is read and written by [on] and
    [emit] only; the two methods are functions of the object that the field
    holds. *)

Module Registry.

(** A callback registered with [on], as [emit] calls it: [fn()], with no
    argument and without [await].  [res_err] is what the call itself throws;
    the promise that the call returns is dropped, and with it its
    rejection.  A listener acts on the world; it registers no listener. *)
Definition Listener := effect.

(** The object that [handlers] holds: the array of the listeners of each
    event. *)
Abbreviation registry := (gmap string (list Listener)).

(** [on(event, callback)]:
    [if (!handlers[event]) handlers[event] = []; handlers[event].push(callback)] *)
Definition on (handlers : registry) (event : string) (callback : Listener) : registry :=
  let handlers :=
    if negb (bool_decide (is_Some (handlers !! event)))
    then <[event := []]> handlers
    else handlers in
  alter (λ fns, fns ++ [callback]) event handlers.

(** [fns.forEach((fn) => fn())]: the listeners are called in array order;
    what one of them throws ends the loop. *)
Fixpoint forEach (fns : list Listener) (w : world) : result :=
  match fns with
  | [] => Result w [] None
  | fn :: rest =>
      let r := fn w in
      match res_err r with
      | Some e => r
      | None =>
          let r' := forEach rest (res_world r) in
          Result (res_world r') (res_out r ++ res_out r') (res_err r')
      end
  end.

(** [emit(event)]: [handlers[event].forEach((fn) => fn())] *)
Definition emit (handlers : registry) (event : string) : effect :=
  match handlers !! event with
  | None => λ w, Result w [] (Some (undefined_read "forEach"))
  | Some fns => forEach fns
  end.

End Registry.

(** * The vocabulary of the properties *)

(** ** Traces *)

Definition is_console (ev : event) : bool :=
  match ev with Console _ _ => true | _ => false end.

(** The trace without the console lines: the hook invocations and the
    engine's write, in order. *)
Definition calls (tr : list event) : list event :=
  filter (λ ev, is_console ev = false) tr.

(** [m] only appends to the trace, every event it appends satisfies [P], and
    it leaves the transition records alone. *)
Definition emits {A} (P : event → Prop) (m : M A) : Prop :=
  ∀ st, ∃ evs,
    st_trace (m st).2 = st_trace st ++ evs ∧ Forall P evs ∧
    st_tables (m st).2 = st_tables st.

(** The events of the [try] block: hook invocations, the write, and what
    the hooks printed. *)
Definition try_event (ev : event) : Prop :=
  match ev with
  | Called_onBefore _ | Called_beforeTransition _ _ | Wrote _ _ _
  | Called_onAfter _ | Called_afterTransition _ _ | Console _ None => True
  | _ => False
  end.

(** The events of the [catch] block. *)
Definition catch_event (ev : event) : Prop :=
  match ev with
  | Called_onInvalidTransition _ | Rebound _ | Called_onAbort _
  | Called_onError _ _ | Console _ _ => True
  | _ => False
  end.

(** ** Hooks and the worlds of a run *)

(** [f] returns normally, whatever the world. *)
Definition never_raises (f : effect) : Prop := ∀ w, res_err (f w) = None.

(** [f] leaves the predicate [Q] on worlds true. *)
Definition keeps (Q : world → Prop) (f : effect) : Prop :=
  ∀ w, Q w → Q (res_world (f w)).

(** The invocation of an optional hook, as it shows in the trace. *)
Definition opt_call {A} (f : option A) (ev : event) : list event :=
  match f with Some _ => [ev] | None => [] end.





(** The state field of the entity at [l] holds [v]. *)
Definition state_is (l : loc) (key : string) (v : value) (w : world) : Prop :=
  (objs w !!! l) !! key = Some v.

(** ** The failure paths *)

(** The handlers that the [catch] block reads from the configuration. *)
Definition invalid_handler (this : StateMachine) : option InvalidTransitionHandler :=
  nc_globalHooks (config this) ≫= onInvalidTransition.

Definition error_handler (this : StateMachine) : option ErrorTransitionHandler :=
  nc_globalHooks (config this) ≫= onError.

(** The abort branch is taken. *)
Definition aborts (nextTransition : option TransitionConfig) (err : error) : bool :=
  truthy (nextTransition ≫= isAbortable) && instanceof_AbortTransition err.

(** The error that [preTransition] raises for an undeclared target. *)
Definition invalid_target_error (currentState : value) (T : string)
    (context : option Context) (now : nat) : error :=
  InvalidTransition "Invalid Transaction"
    {| tp_from := Some currentState; tp_to := Some T;
       tp_message := Some "Invalid Transaction";
       tp_timestamp := Some now; tp_meta := Some context |}.

(** ** The constructor *)

(** What the constructor does to one edge. *)
Definition normalize_edge (tK nS : string) (t : TransitionConfig) : TransitionConfig :=
  if lacks_onAbort t then set_onAbort (default_onAbort tK nS) t else t.

(** The transitions record in which the edges selected by [vis] have been
    visited. *)
Definition visited (vis : string → string → bool) (tbl : table) : table :=
  map_imap (λ tK row,
    Some (map_imap (λ nS t,
      Some (if vis tK nS then normalize_edge tK nS t else t)) row)) tbl.

(** ** The [catch] block *)

(** The world and the trace that a call of [f] leaves. *)
Definition after_call (ev : event) (f : effect) (st : state) : state :=
  State (res_world (f (st_world st))) (st_tables st)
        (st_trace st ++ ev :: map (λ s, Console s None) (res_out (f (st_world st)))).

(** The state that each statement of the [catch] block leaves.  It is the
    same whether the handler raises or returns. *)
Definition after_report_invalid (this : StateMachine) (T : string)
    (context : option Context) (cur : value) (err : error) (st : state) : state :=
  match (if instanceof_InvalidTransition err then invalid_handler this else None) with
  | Some f =>
      let p := error_payload cur T (or_default (error_message err) "Invalid transition.")
                             (clock (st_world st)) context in
      after_call (Called_onInvalidTransition p) (f p) st
  | None => st
  end.

Definition after_rollback_or_notice (T : string) (context : option Context)
    (cur : value) (nextTransition : option TransitionConfig) (snapshot : entity)
    (err : error) (st : state) : state :=
  if aborts nextTransition err then
    let st1 := State (st_world st) (st_tables st)
                     (st_trace st ++ [Rebound (structuredClone snapshot)]) in
    match nextTransition ≫= onAbort with
    | Some f =>
        let p := error_payload cur T (or_default (error_message err) "Aborting transition.")
                               (clock (st_world st)) context in
        after_call (Called_onAbort p) (f p) st1
    | None => st1
    end
  else
    State (st_world st) (st_tables st)
          (st_trace st ++ [Console skipped_notice (Some err)]).

Definition after_report_error (this : StateMachine) (T : string)
    (context : option Context) (cur : value) (err : error) (st : state) : state :=
  match error_handler this with
  | Some f =>
      let p := error_payload cur T (or_default (error_message err) "Aborting transition.")
                             (clock (st_world st)) context in
      after_call (Called_onError err p) (f err p) st
  | None => st
  end.

(** The handlers of the failure at hand return normally. *)
Definition invalid_handler_returns (this : StateMachine) (err : error) : Prop :=
  ∀ f p, instanceof_InvalidTransition err = true →
         invalid_handler this = Some f → never_raises (f p).

Definition abort_handler_returns (nextTransition : option TransitionConfig)
    (err : error) : Prop :=
  ∀ f p, aborts nextTransition err = true →
         nextTransition ≫= onAbort = Some f → never_raises (f p).

Definition error_handler_returns (this : StateMachine) : Prop :=
  ∀ f err p, error_handler this = Some f → never_raises (f err p).

(** Every event but a call of [onError]. *)
Definition before_onError (ev : event) : Prop :=
  match ev with
  | Called_onError _ _ => False
  | _ => True
  end.

(** [m] leaves [Q] true of the world. *)
Definition preserves {A} (Q : world → Prop) (m : M A) : Prop :=
  ∀ st, Q (st_world st) → Q (st_world (m st).2).

(** Every event but a call of [onAbort]. *)
Definition not_onAbort (ev : event) : Prop :=
  match ev with
  | Called_onAbort _ => False
  | _ => True
  end.

(** * The vocabulary of the further properties *)

(** ** The phases of a run *)

(** The events of the before-phase. *)
Definition before_event (ev : event) : Prop :=
  match ev with
  | Called_onBefore _ | Called_beforeTransition _ _ | Console _ None => True
  | _ => False
  end.

(** The events of the after-phase. *)
Definition after_event (ev : event) : Prop :=
  match ev with
  | Called_onAfter _ | Called_afterTransition _ _ | Console _ None => True
  | _ => False
  end.

(** Every event but a call of [onInvalidTransition]. *)
Definition not_onInvalidTransition (ev : event) : Prop :=
  match ev with
  | Called_onInvalidTransition _ => False
  | _ => True
  end.

(** The record that [transition] hands to [preTransition]. *)
Definition pre_params (entity : loc) (T : string) (context : option Context)
    (cur : value) (row : row) : PreTransitionParams :=
  {| pre_currentState := cur;
     pre_allowedNextStates := row;
     pre_nextState := T;
     pre_nextTransition := row !! T;
     pre_entity := entity;
     pre_context := context |}.

(** The record that [transition] hands to [postTransition]. *)
Definition post_params (entity : loc) (T : string) (context : option Context)
    (key : string) (cur : value) (row : row) : PostTransitionParams :=
  {| post_currentState := cur;
     post_nextState := T;
     post_nextTransition := row !! T;
     post_entity := entity;
     post_stateKey := key;
     post_context := context |}.

(** The hooks of the before-phase, the hooks of the after-phase and the
    handlers of the [catch] block leave [Q] true. *)
Definition before_hooks_keep (Q : world → Prop) (this : StateMachine)
    (nextTransition : option TransitionConfig) (entity : loc) : Prop :=
  (∀ f, nextTransition ≫= onBefore = Some f → keeps Q (f entity)) ∧
  (∀ fn p, fn ∈ default [] (nc_globalHooks (config this) ≫= beforeTransition) →
           keeps Q (fn p)).

Definition after_hooks_keep (Q : world → Prop) (this : StateMachine)
    (nextTransition : option TransitionConfig) (entity : loc) : Prop :=
  (∀ f, nextTransition ≫= onAfter = Some f → keeps Q (f entity)) ∧
  (∀ fn p, fn ∈ default [] (nc_globalHooks (config this) ≫= afterTransition) →
           keeps Q (fn p)).

Definition handlers_keep (Q : world → Prop) (this : StateMachine)
    (nextTransition : option TransitionConfig) : Prop :=
  (∀ f p, invalid_handler this = Some f → keeps Q (f p)) ∧
  (∀ f p, nextTransition ≫= onAbort = Some f → keeps Q (f p)) ∧
  (∀ f er p, error_handler this = Some f → keeps Q (f er p)).



(** ** Callers *)








(** [params.message || fallback] *)
Definition message_or (params : TransitionParams) (fallback : string) : string :=
  match tp_message params with
  | Some m => if bool_decide (m = "") then fallback else m
  | None => fallback
  end.

(** ** Registrations *)

(** A caller that registers the listeners of [regs], one call of [on] after
    the other, on an engine that has just been built. *)
Definition registered (regs : list (string * Registry.Listener)) : Registry.registry :=
  foldl (λ handlers r, Registry.on handlers r.1 r.2) ∅ regs.


(** * The processor of the integration tests

    A processor that must be paid before it runs: the entity, the hooks and
    the configurations that the examples at the end of the file run. *)

Module Processor.

Definition plain : TransitionConfig :=
  {| isAbortable := None; onBefore := None; onAbort := None; onAfter := None;
     details := None |}.

Definition abort (message : string) (w : world) : error :=
  new_AbortTransition
    {| tp_from := None; tp_to := None; tp_message := Some message;
       tp_timestamp := None; tp_meta := None |} (clock w).

(** [async (entity) => { entity.note = "modified";
                         if (entity.paid === false) throw new AbortTransition(...) }] *)
Definition require_payment : EventHandler := λ entity w,
  let w' := set_field entity "note" (VStr "modified") w in
  match (objs w !!! entity) !! "paid" with
  | Some (VBool false) => Result w' [] (Some (abort "Payment required" w))
  | _ => Result w' [] None
  end.

(** [async () => { throw new AbortTransition({ message: "Too late" }) }] *)
Definition too_late : EventHandler := λ _ w, Result w [] (Some (abort "Too late" w)).

(** [async (entity) => { entity.progress = 100; console.log("finishing") }] *)
Definition finish : EventHandler := λ entity w,
  Result (set_field entity "progress" (VNum 100) w) ["finishing"] None.

(** A handler that only prints. *)
Definition say {A} (line : string) : A → effect := λ _ w, Result w [line] None.

(** A handler that raises. *)
Definition broken {A} : A → effect :=
  λ _ w, Result w [] (Some (Error "handler failed")).

(** The caller's transitions record. *)
Definition processor_transitions : table :=
  {[ "idle" :=
       {[ "running" :=
            {| isAbortable := Some true; onBefore := Some require_payment;
               onAbort := None; onAfter := None; details := None |};
          "stopped" :=
            {| isAbortable := Some false; onBefore := Some too_late;
               onAbort := Some (say "never"); onAfter := None; details := None |} ]};
     "running" :=
       {[ "completed" :=
            {| isAbortable := None; onBefore := Some finish;
               onAbort := None; onAfter := Some (say "done"); details := None |};
          "failed" :=
            {| isAbortable := Some true; onBefore := None;
               onAbort := Some (say "aborted"); onAfter := Some too_late;
               details := None |} ]} ]}.

Definition hooks : GlobalHooks :=
  {| beforeTransition := Some [λ _, say "before" ()];
     afterTransition := Some [λ _, say "after" ()];
     onInvalidTransition := Some (say "invalid");
     onError := Some (λ _, say "error") |}.

(** The same hooks with an [onInvalidTransition] that throws. *)
Definition hooks_broken_invalid : GlobalHooks :=
  {| beforeTransition := None;
     afterTransition := None;
     onInvalidTransition := Some broken;
     onError := Some (λ _, say "error") |}.


(** The caller's configuration: its [transitions] is the record at
    location 0. *)
Definition processor_config (h : GlobalHooks) : MachineConfig :=
  {| initialState := "idle"; stateKey := None; transitions := 0;
     globalHooks := Some h |}.

Definition caller_tables : gmap loc table := {[ 0 := processor_transitions ]}.

Definition machine (h : GlobalHooks) : StateMachine :=
  (constructor (processor_config h) caller_tables).1.

Definition tables : gmap loc table :=
  (constructor (processor_config hooks) caller_tables).2.

Definition processor (status : string) (paid : bool) : entity :=
  {[ "id" := VNum 1; "name" := VStr "P1"; "status" := VStr status;
     "paid" := VBool paid; "note" := VStr "original" ]}.

(** A world with one processor, at location 7. *)
Definition world_of (status : string) (paid : bool) : world :=
  {| objs := {[ 7 := processor status paid ]}; clock := 1000 |}.

Definition run (h : GlobalHooks) (status : string) (paid : bool) (T : string)
  : res unit * state :=
  run_transition (machine h) 7 T None (world_of status paid) tables.

Definition status_after (r : res unit * state) : option value :=
  (objs (st_world r.2) !!! 7) !! "status".

Definition note_after (r : res unit * state) : option value :=
  (objs (st_world r.2) !!! 7) !! "note".

(** The record after construction, as the engine reads it. *)
Definition engine_row (status : string) : row :=
  default ∅ (normalize processor_transitions !! status).

Definition engine_edge (status T : string) : TransitionConfig :=
  default plain (engine_row status !! T).

(** The [try] block of a run. *)
Definition try_of (h : GlobalHooks) (status : string) (paid : bool) (T : string)
  : res unit * state :=
  transition_try (machine h) 7 T None "status" (VStr status)
    (engine_row status) (engine_row status !! T)
    (State (world_of status paid) tables []).

Definition ep (from to message : string) : ErrorPayload :=
  error_payload (VStr from) to message 1000 None.

Definition tp (from to : string) : TransitionPayload :=
  transition_payload (VStr from) to None 1000.

(** The record as the caller wrote it. *)
Definition caller_row (status : string) : row :=
  default ∅ (processor_transitions !! status).

Definition caller_edge (status T : string) : TransitionConfig :=
  default plain (caller_row status !! T).

End Processor.

(** * A workshop: more hooks, a record without failures, listeners *)

Module Workshop.






(** Three listeners, [() => { console.log("ring") }],
    [() => { console.log("hello") }] and
    [() => { throw new Error("listener failed") }], and the registrations of
    a caller:
    [on("done", chime); on("start", greet); on("done", crash); on("done", chime)] *)
Definition chime : Registry.Listener := λ w, Result w ["ring"] None.
Definition greet : Registry.Listener := λ w, Result w ["hello"] None.
Definition crash : Registry.Listener := λ w, Result w [] (Some (Error "listener failed")).

Definition registrations : list (string * Registry.Listener) :=
  [("done", chime); ("start", greet); ("done", crash); ("done", chime)].

End Workshop.

(** * Properties *)

(** ** Values *)

(** A clone is structurally equal to what it copies. *)
Lemma clone_value_id (v : value) : clone_value v = v.
Proof.
  revert v. fix IH 1. intros [| |b|n|s|items|props]; simpl; try reflexivity.
  - f_equal. induction items as [|x items IHitems]; simpl; [reflexivity|].
    by rewrite IH, IHitems.
  - f_equal. induction props as [|[k x] props IHprops]; simpl; [reflexivity|].
    by rewrite IH, IHprops.
Qed.

Lemma structuredClone_id (e : entity) : structuredClone e = e.
Proof.
  unfold structuredClone. apply map_eq. intros k. rewrite lookup_fmap.
  destruct (e !! k); simpl; [by rewrite clone_value_id|done].
Qed.

(** ** What a computation emits *)

Arguments call : simpl never.

Section emits.
Context (P : event → Prop).

Lemma emits_ret {A} (a : A) : emits P (ret a).
Proof. intros st. exists []. by rewrite app_nil_r. Qed.

Lemma emits_throw {A} e : emits P (@throw A e).
Proof. intros st. exists []. by rewrite app_nil_r. Qed.

Lemma emits_bind {A B} (m : M A) (k : A → M B) :
  emits P m → (∀ a, emits P (k a)) → emits P (bind m k).
Proof.
  intros Hm Hk st. unfold bind.
  destruct (Hm st) as (evs & Htr & HP & Htb).
  destruct (m st) as [[a|e] st1]; simpl in *.
  - destruct (Hk a st1) as (evs' & Htr' & HP' & Htb').
    exists (evs ++ evs'). rewrite Htr', Htr, Htb', Htb, app_assoc.
    split_and!; [done| |done]. by apply Forall_app.
  - by exists evs.
Qed.


Lemma emits_emit ev : P ev → emits P (emit ev).
Proof. intros Hev st. exists [ev]. split_and!; [done| |done]. by constructor. Qed.

Lemma emits_new_Date : emits P new_Date.
Proof. intros st. exists []. by rewrite app_nil_r. Qed.

Lemma emits_read_obj l : emits P (read_obj l).
Proof. intros st. exists []. by rewrite app_nil_r. Qed.


Lemma emits_get_prop l key : emits P (get_prop l key).
Proof. apply emits_bind; [apply emits_read_obj|intros; apply emits_ret]. Qed.

Lemma emits_set_prop l key v : P (Wrote l key v) → emits P (set_prop l key v).
Proof. intros Hev st. exists [Wrote l key v]. split_and!; [done| |done]. by constructor. Qed.

Lemma emits_call ev f :
  P ev → (∀ s, P (Console s None)) → emits P (call ev f).
Proof.
  intros Hev Hc st. unfold call.
  exists (ev :: map (λ s, Console s None) (res_out (f (st_world st)))).
  simpl. split_and!; [done| |done].
  constructor; [done|]. apply Forall_forall. intros x [s [-> _]]%list_elem_of_fmap.
  apply Hc.
Qed.

Lemma emits_call_opt ev f :
  P ev → (∀ s, P (Console s None)) → emits P (call_opt ev f).
Proof. destruct f; simpl; intros; [by apply emits_call|apply emits_ret]. Qed.

Lemma emits_Promise_all mk i hooks :
  (∀ j, P (mk j)) → (∀ s, P (Console s None)) → emits P (Promise_all mk i hooks).
Proof.
  intros Hmk Hc. revert i. induction hooks as [|fn rest IH]; intros i.
  - apply emits_ret.
  - unfold emits. intros st. cbn [Promise_all]. cbv beta.
    destruct (emits_call (mk i) fn (Hmk i) Hc st) as (evs & Htr & HP & Htb).
    destruct (call (mk i) fn st) as [r1 st1]; simpl in *.
    destruct (IH (S i) st1) as (evs' & Htr' & HP' & Htb').
    destruct (Promise_all mk (S i) rest st1) as [r2 st2]; simpl in *.
    exists (evs ++ evs'). rewrite Htr', Htr, Htb', Htb, app_assoc.
    split_and!; [done| |done]. by apply Forall_app.
Qed.
End emits.


Lemma preTransition_emits this params : emits try_event (preTransition this params).
Proof.
  unfold preTransition. case_match.
  - apply emits_bind; [apply emits_new_Date|intros; apply emits_throw].
  - case_match; [|apply emits_throw].
    apply emits_bind; [by apply emits_call_opt|intros _].
    apply emits_bind; [apply emits_new_Date|intros now].
    by apply emits_Promise_all.
Qed.

Lemma postTransition_emits this params : emits try_event (postTransition this params).
Proof.
  unfold postTransition.
  apply emits_bind; [apply emits_get_prop|intros v].
  case_match; [apply emits_throw|].
  case_match; [|apply emits_throw].
  apply emits_bind; [by apply emits_call_opt|intros _].
  apply emits_bind; [apply emits_new_Date|intros now].
  by apply emits_Promise_all.
Qed.

Lemma transition_try_emits this entity nextState context stateKey currentState
    allowedNextStates nextTransition :
  emits try_event (transition_try this entity nextState context stateKey currentState
                                  allowedNextStates nextTransition).
Proof.
  unfold transition_try.
  apply emits_bind; [apply preTransition_emits|intros _].
  apply emits_bind; [by apply emits_set_prop|intros _].
  apply postTransition_emits.
Qed.

Lemma transition_catch_emits this nextState context currentState nextTransition
    entitySnapshot error :
  emits catch_event (transition_catch this nextState context currentState
                                      nextTransition entitySnapshot error).
Proof.
  unfold transition_catch, report_invalid, rollback_or_notice, report_error.
  apply emits_bind; [|intros _; apply emits_bind; [|intros _]].
  - case_match; [|apply emits_ret].
    apply emits_bind; [apply emits_new_Date|intros now]. by apply emits_call_opt.
  - case_match; [|by apply emits_emit].
    apply emits_bind; [by apply emits_emit|intros _].
    apply emits_bind; [apply emits_new_Date|intros now]. by apply emits_call_opt.
  - case_match; [|apply emits_ret].
    apply emits_bind; [apply emits_new_Date|intros now]. by apply emits_call.
Qed.


(** ** Runs in which no hook raises *)







Lemma set_field_lookup l key v w : (objs (set_field l key v w) !!! l) !! key = Some v.
Proof. simpl. by rewrite lookup_total_insert_eq, lookup_insert_eq. Qed.

(** [preTransition] on a declared edge: the validation passes and the
    before-phase runs. *)
Lemma preTransition_declared this currentState row T edge entity context :
  row !! T = Some edge →
  preTransition this
    {| pre_currentState := currentState; pre_allowedNextStates := row;
       pre_nextState := T; pre_nextTransition := row !! T;
       pre_entity := entity; pre_context := context |}
  = (call_opt (Called_onBefore entity) ((λ f : EventHandler, f entity) <$> onBefore edge) ;;
     let* now := new_Date in
     let payload := transition_payload currentState T context now in
     Promise_all (λ i, Called_beforeTransition i payload) 0
       (map (λ fn : TransitionHandler, fn payload)
            (default [] (nc_globalHooks (config this) ≫= beforeTransition)))).
Proof.
  intros Hedge. unfold preTransition. simpl. rewrite Hedge.
  by rewrite bool_decide_true by eauto.
Qed.

(** [transition] up to the [try] statement, when the current state is a key
    of the transitions record. *)
Lemma transition_declared_state this entity T context w tables e tbl row :
  objs w !! entity = Some e →
  tables !! nc_transitions (config this) = Some tbl →
  tbl !! to_property_key (default VUndef (e !! nc_stateKey (config this))) = Some row →
  run_transition this entity T context w tables
  = try_catch
      (transition_try this entity T context (nc_stateKey (config this))
         (default VUndef (e !! nc_stateKey (config this))) row (row !! T))
      (transition_catch this T context
         (default VUndef (e !! nc_stateKey (config this))) (row !! T)
         (structuredClone e))
      (State w tables []).
Proof.
  intros Hobj Htbl Hrow. unfold run_transition, transition, bind, get_prop, bind,
    read_obj, read_table, ret. simpl.
  rewrite (lookup_total_correct _ _ _ Hobj), (lookup_total_correct _ _ _ Htbl).
  rewrite Hrow. simpl. by rewrite (lookup_total_correct _ _ _ Hobj).
Qed.


(** ** The failure paths *)

Lemma report_invalid_run this T context cur err st :
  report_invalid this T context cur err st =
  match (if instanceof_InvalidTransition err then invalid_handler this else None) with
  | Some f =>
      let p := error_payload cur T (or_default (error_message err) "Invalid transition.")
                             (clock (st_world st)) context in
      call (Called_onInvalidTransition p) (f p) st
  | None => (Ok (), st)
  end.
Proof.
  unfold report_invalid, invalid_handler.
  destruct (instanceof_InvalidTransition err); [|done].
  unfold bind, new_Date. by destruct (nc_globalHooks (config this) ≫= onInvalidTransition).
Qed.

Lemma rollback_or_notice_run T context cur nextTransition snapshot err st :
  rollback_or_notice T context cur nextTransition snapshot err st =
  if aborts nextTransition err then
    let st1 := State (st_world st) (st_tables st)
                     (st_trace st ++ [Rebound (structuredClone snapshot)]) in
    match nextTransition ≫= onAbort with
    | Some f =>
        let p := error_payload cur T (or_default (error_message err) "Aborting transition.")
                               (clock (st_world st)) context in
        call (Called_onAbort p) (f p) st1
    | None => (Ok (), st1)
    end
  else
    (Ok (), State (st_world st) (st_tables st)
                  (st_trace st ++ [Console skipped_notice (Some err)])).
Proof.
  unfold rollback_or_notice, aborts.
  destruct (truthy _ && _); [|done].
  unfold bind, new_Date, emit. simpl. by destruct (nextTransition ≫= onAbort).
Qed.

Lemma report_error_run this T context cur err st :
  report_error this T context cur err st =
  match error_handler this with
  | Some f =>
      let p := error_payload cur T (or_default (error_message err) "Aborting transition.")
                             (clock (st_world st)) context in
      call (Called_onError err p) (f err p) st
  | None => (Ok (), st)
  end.
Proof. unfold report_error, error_handler. by destruct (nc_globalHooks (config this) ≫= onError). Qed.


Lemma Forall_console (P : event → Prop) (out : list string) :
  (∀ s, P (Console s None)) → Forall P (map (λ s, Console s None) out).
Proof. intros HP. apply Forall_forall. intros ev [s [-> _]]%list_elem_of_fmap. apply HP. Qed.


(** ** The constructor *)

Lemma lacks_onAbort_normalize_edge tK nS t : lacks_onAbort (normalize_edge tK nS t) = false.
Proof.
  unfold normalize_edge. destruct (lacks_onAbort t) eqn:Hc; [|done].
  unfold lacks_onAbort. simpl. apply andb_false_r.
Qed.

Lemma visited_lookup vis tbl tK :
  visited vis tbl !! tK =
  (λ row, map_imap (λ nS t,
     Some (if vis tK nS then normalize_edge tK nS t else t)) row) <$> tbl !! tK.
Proof. unfold visited. rewrite map_lookup_imap. by destruct (tbl !! tK). Qed.

Lemma visited_row_lookup (vis : string → bool) tK (row : gmap string TransitionConfig) nS :
  map_imap (λ (b : string) (t : TransitionConfig),
              Some (if vis b then normalize_edge tK b t else t)) row !! nS =
  (λ t, if vis nS then normalize_edge tK nS t else t) <$> row !! nS.
Proof. rewrite map_lookup_imap. by destruct (row !! nS). Qed.

Lemma visited_ext (vis vis' : string → string → bool) (tbl : table) :
  (∀ (tK nS : string) (row : gmap string TransitionConfig) (t : TransitionConfig),
     tbl !! tK = Some row → row !! nS = Some t →
     (if vis tK nS then normalize_edge tK nS t else t) =
     (if vis' tK nS then normalize_edge tK nS t else t)) →
  visited vis tbl = visited vis' tbl.
Proof.
  intros Hext. apply map_eq. intros tK. rewrite !visited_lookup.
  destruct (tbl !! tK) as [row|] eqn:Hrow; [|done]. simpl. f_equal.
  apply map_eq. intros nS. rewrite !visited_row_lookup.
  destruct (row !! nS) as [t|] eqn:Ht; [|done]. simpl. f_equal. by eapply Hext.
Qed.

Lemma visited_none (tbl : table) : visited (λ _ _, false) tbl = tbl.
Proof.
  apply map_eq. intros tK. rewrite visited_lookup.
  destruct (tbl !! tK) as [row|] eqn:Hrow; [|done]. simpl. f_equal.
  apply map_eq. intros nS. rewrite (visited_row_lookup (λ _, false) tK).
  by destruct (row !! nS).
Qed.

Lemma visit_edge_visited vis tbl tK nS :
  visit_edge tK (visited vis tbl) nS =
  visited (λ a b, vis a b || bool_decide (a = tK ∧ b = nS)) tbl.
Proof.
  unfold visit_edge. rewrite visited_lookup.
  destruct (tbl !! tK) as [row|] eqn:Hrow; simpl.
  2: { apply visited_ext. intros a b row t Ha Hb.
       rewrite bool_decide_false, orb_false_r; [done|]. intros [-> _]. congruence. }
  rewrite (visited_row_lookup (vis tK)).
  destruct (row !! nS) as [t|] eqn:Ht; simpl.
  2: { apply visited_ext. intros a b row' t Ha Hb.
       rewrite bool_decide_false, orb_false_r; [done|]. intros [-> ->]. congruence. }
  destruct (lacks_onAbort (if vis tK nS then normalize_edge tK nS t else t)) eqn:Hc.
  - destruct (vis tK nS) eqn:Hvis; [by rewrite lacks_onAbort_normalize_edge in Hc|].
    apply map_eq. intros a. rewrite lookup_alter, !visited_lookup.
    destruct (decide (tK = a)) as [<-|Hne].
    + rewrite Hrow. simpl. f_equal. apply map_eq. intros b.
      rewrite lookup_alter, !visited_row_lookup.
      destruct (decide (nS = b)) as [<-|Hne].
      * rewrite Ht, Hvis. simpl. rewrite bool_decide_true by done.
        unfold normalize_edge. by rewrite Hc.
      * rewrite bool_decide_false, orb_false_r; [done|]. by intros [_ ->].
    + destruct (tbl !! a) as [row'|]; [|done]. simpl. f_equal.
      apply map_eq. intros b. rewrite !visited_row_lookup.
      rewrite bool_decide_false, orb_false_r; [done|]. by intros [-> _].
  - apply visited_ext. intros a b row' t' Ha Hb.
    destruct (decide (a = tK ∧ b = nS)) as [[-> ->]|Hne].
    + rewrite bool_decide_true, orb_true_r by done.
      assert (row' = row) as -> by congruence. assert (t' = t) as -> by congruence.
      destruct (vis tK nS); [done|]. unfold normalize_edge. by rewrite Hc.
    + by rewrite bool_decide_false, orb_false_r.
Qed.

Lemma visit_edges_visited vis tbl tK ks :
  foldl (visit_edge tK) (visited vis tbl) ks =
  visited (λ a b, vis a b || bool_decide (a = tK ∧ b ∈ ks)) tbl.
Proof.
  revert vis. induction ks as [|nS ks IH]; intros vis; simpl.
  - apply visited_ext. intros a b row t _ _.
    rewrite bool_decide_false, orb_false_r; [done|]. intros [_ ?%elem_of_nil]. done.
  - rewrite visit_edge_visited, IH. apply visited_ext. intros a b row t _ _.
    rewrite <-orb_assoc, <-bool_decide_or.
    rewrite (bool_decide_ext _ (a = tK ∧ b ∈ nS :: ks)); [done|].
    rewrite elem_of_cons. tauto.
Qed.

Lemma elem_of_keys {A} (o : gmap string A) k : k ∈ keys o ↔ is_Some (o !! k).
Proof.
  unfold keys. rewrite list_elem_of_fmap. split.
  - intros [[k' v] [-> Hin%elem_of_map_to_list]]. eauto.
  - intros [v Hv]. exists (k, v). split; [done|]. by apply elem_of_map_to_list.
Qed.

Lemma visit_state_visited vis tbl tK :
  visit_state (visited vis tbl) tK =
  visited (λ a b, vis a b || bool_decide (a = tK)) tbl.
Proof.
  unfold visit_state. rewrite visit_edges_visited. apply visited_ext.
  intros a b row t Ha Hb.
  rewrite (bool_decide_ext _ (a = tK)); [done|].
  split; [by intros [-> _]|]. intros ->. split; [done|].
  apply elem_of_keys. rewrite lookup_total_alt, visited_lookup, Ha. simpl.
  rewrite (visited_row_lookup (vis tK)), Hb. eauto.
Qed.

Lemma visit_states_visited vis tbl ks :
  foldl visit_state (visited vis tbl) ks =
  visited (λ a b, vis a b || bool_decide (a ∈ ks)) tbl.
Proof.
  revert vis. induction ks as [|tK ks IH]; intros vis; simpl.
  - apply visited_ext. intros a b row t _ _. by rewrite orb_false_r.
  - rewrite visit_state_visited, IH. apply visited_ext. intros a b row t _ _.
    rewrite <-orb_assoc, <-bool_decide_or.
    rewrite (bool_decide_ext _ (a ∈ tK :: ks)); [done|].
    rewrite elem_of_cons. tauto.
Qed.

(** The two loops visit every edge once: the record they leave is the
    record in which every edge is normalized. *)
Lemma normalize_visited tbl : normalize tbl = visited (λ _ _, true) tbl.
Proof.
  unfold normalize. rewrite <-(visited_none tbl) at 1. rewrite visit_states_visited.
  apply visited_ext. intros a b row t Ha _. simpl.
  rewrite bool_decide_true; [done|]. apply elem_of_keys. eauto.
Qed.

Lemma normalize_lookup tbl tK nS :
  normalize tbl !! tK ≫= (.!! nS) = normalize_edge tK nS <$> (tbl !! tK ≫= (.!! nS)).
Proof.
  rewrite normalize_visited, visited_lookup.
  destruct (tbl !! tK) as [row|]; [|done]. simpl.
  by rewrite (visited_row_lookup (λ _, true)).
Qed.


Lemma constructor_tables (cfg : MachineConfig) tables :
  (constructor cfg tables).2 =
  <[transitions cfg := normalize (tables !!! transitions cfg)]> tables.
Proof. done. Qed.



(** C10.  The constructor writes the default handlers into the record that
    the caller's [config.transitions] designates, and the engine's stored
    configuration holds that same reference, not a copy: after construction
    the caller's own record carries the handler it did not have. *)
Theorem constructor_mutates_caller_config cfg tables tbl S row T t :
  tables !! transitions cfg = Some tbl →
  tbl !! S = Some row →
  row !! T = Some t →
  isAbortable t = Some true →
  onAbort t = None →
  let this := (constructor cfg tables).1 in
  let tables' := (constructor cfg tables).2 in
  nc_transitions (config this) = transitions cfg ∧
  (∃ t', (tables' !! transitions cfg ≫= (.!! S)) ≫= (.!! T) = Some t' ∧
         onAbort t' = Some (default_onAbort S T)) ∧
  tables' !! transitions cfg ≠ tables !! transitions cfg ∧
  (∀ r, r ≠ transitions cfg → tables' !! r = tables !! r).
Proof.
  intros Htbl Hrow Ht Hab Hno this tables'.
  assert (Hlook : (tables' !! transitions cfg ≫= (.!! S)) ≫= (.!! T)
                  = Some (set_onAbort (default_onAbort S T) t)).
  { subst tables'. rewrite constructor_tables, lookup_insert_eq. simpl.
    rewrite (lookup_total_correct _ _ _ Htbl).
    pose proof (normalize_lookup tbl S T) as Hn. rewrite Hrow in Hn. simpl in Hn.
    rewrite Ht in Hn. simpl in Hn. rewrite Hn.
    unfold normalize_edge, lacks_onAbort. by rewrite Hab, Hno. }
  split_and!.
  - done.
  - eexists. split; [exact Hlook|done].
  - intros Heq. rewrite Heq, Htbl in Hlook. simpl in Hlook.
    rewrite Hrow in Hlook. simpl in Hlook. rewrite Ht in Hlook.
    injection Hlook as Hlook. rewrite Hlook in Hno. done.
  - intros r Hne. subst tables'. rewrite constructor_tables. by rewrite lookup_insert_ne.
Qed.

(** ** A before-hook that raises *)

Lemma call_raises ev f st err :
  res_err (f (st_world st)) = Some err → call ev f st = (Throw err, after_call ev f st).
Proof. intros Herr. unfold call. cbv zeta. by rewrite Herr. Qed.

Lemma call_returns ev f st :
  res_err (f (st_world st)) = None → call ev f st = (Ok (), after_call ev f st).
Proof. intros Herr. unfold call. cbv zeta. by rewrite Herr. Qed.

(** When the edge's [onBefore] raises, the [try] block ends there: the
    global hooks do not run and nothing is written. *)
Lemma transition_try_onBefore_raises this entity T context key cur row edge f err st :
  row !! T = Some edge →
  onBefore edge = Some f →
  res_err (f entity (st_world st)) = Some err →
  transition_try this entity T context key cur row (row !! T) st
  = (Throw err, after_call (Called_onBefore entity) (f entity) st).
Proof.
  intros Hedge Hf Herr. unfold transition_try. unfold bind at 1.
  rewrite (preTransition_declared _ _ _ _ edge) by done.
  unfold bind at 1. rewrite Hf. cbn [fmap option_fmap option_map call_opt].
  by rewrite (call_raises _ _ _ err).
Qed.

Lemma not_elem_of_Forall {A} (P : A → Prop) (l : list A) (x : A) :
  Forall P l → ¬ P x → x ∉ l.
Proof. intros HF HP Hin. apply HP. by eapply Forall_forall. Qed.

(** [Forall P] on a trace written out as a list. *)
Ltac solve_trace :=
  repeat first
    [ apply Forall_nil_2
    | apply Forall_console; done
    | apply Forall_cons; split; [done|]
    | apply Forall_app; split ].

(** C6.  An edge that is not marked [isAbortable] and whose [onBefore]
    raises the AbortTransition signal: the trace is the call of [onBefore],
    the logged notice with the error, and the call of [onError] with that
    error when [onError] is configured.  So [onAbort] is not called, the
    local rebinding of the rollback is not executed, and the world goes from
    [onBefore] to [onError] untouched by the engine. *)
Theorem ignored_abort_is_logged_and_reported
    this entity T context w tables e tbl S row edge f err :
  let key := nc_stateKey (config this) in
  objs w !! entity = Some e →
  e !! key = Some (VStr S) →
  tables !! nc_transitions (config this) = Some tbl →
  tbl !! S = Some row →
  row !! T = Some edge →
  truthy (isAbortable edge) = false →
  onBefore edge = Some f →
  res_err (f entity w) = Some err →
  instanceof_AbortTransition err = true →
  let w1 := res_world (f entity w) in
  let before :=
    Called_onBefore entity :: map (λ s, Console s None) (res_out (f entity w)) in
  let notice := Console skipped_notice (Some err) in
  let p := error_payload (VStr S) T
             (or_default (error_message err) "Aborting transition.") (clock w1) context in
  ∃ r st',
    run_transition this entity T context w tables = (r, st') ∧
    match error_handler this with
    | Some g =>
        st_trace st' =
          before ++ [notice] ++
          Called_onError err p :: map (λ s, Console s None) (res_out (g err p w1)) ∧
        st_world st' = res_world (g err p w1)
    | None =>
        st_trace st' = before ++ [notice] ∧ st_world st' = w1
    end ∧
    (∀ p', Called_onAbort p' ∉ st_trace st') ∧
    (∀ clone, Rebound clone ∉ st_trace st') ∧
    (∀ l k v, Wrote l k v ∉ st_trace st').
Proof.
  intros key Hobj HS Htbl Hrow Hedge Hab Hf Herr Hinst w1 before notice p.
  subst key. set (key := nc_stateKey (config this)) in *.
  erewrite transition_declared_state; [|done..|by fold key; rewrite HS].
  fold key. rewrite HS. simpl.
  unfold try_catch.
  rewrite (transition_try_onBefore_raises _ _ _ _ _ _ _ edge f err) by done.
  unfold transition_catch. unfold bind at 1. rewrite report_invalid_run.
  replace (instanceof_InvalidTransition err) with false by (by destruct err).
  unfold bind at 1. rewrite rollback_or_notice_run.
  replace (aborts (row !! T) err) with false
    by (unfold aborts; rewrite Hedge; simpl; by rewrite Hab).
  rewrite report_error_run. unfold after_call. cbn [st_world st_tables st_trace app].
  fold w1 before notice p.
  set (P := λ ev, match ev with
                  | Called_onBefore _ | Console _ _ | Called_onError _ _ => True
                  | _ => False
                  end).
  destruct (error_handler this) as [g|].
  - cbv zeta. unfold call. cbv zeta. cbn [st_world st_tables st_trace].
    eexists _, _. split; [done|]. cbn [st_trace st_world].
    split; [simpl; by rewrite <-app_assoc|].
    split_and!; intros; (apply (not_elem_of_Forall P); [solve_trace|exact (λ x, x)]).
  - eexists _, _. split; [done|]. cbn [st_trace st_world]. split; [done|].
    split_and!; intros; (apply (not_elem_of_Forall P); [solve_trace|exact (λ x, x)]).
Qed.

(** ** The [catch] block, statement by statement *)

Lemma call_state ev f st : (call ev f st).2 = after_call ev f st.
Proof. done. Qed.


Lemma call_never_raises ev f st : never_raises f → call ev f st = (Ok (), after_call ev f st).
Proof. intros Hf. apply call_returns, Hf. Qed.

Lemma report_error_state this T context cur err st :
  (report_error this T context cur err st).2 = after_report_error this T context cur err st.
Proof.
  rewrite report_error_run. unfold after_report_error. by destruct (error_handler this).
Qed.

Lemma report_invalid_returns this T context cur err st :
  invalid_handler_returns this err →
  report_invalid this T context cur err st =
  (Ok (), after_report_invalid this T context cur err st).
Proof.
  intros Hret. rewrite report_invalid_run. unfold after_report_invalid.
  destruct (instanceof_InvalidTransition err) eqn:Hi; [|done].
  destruct (invalid_handler this) as [f|] eqn:Hf; [|done].
  cbv zeta. apply call_never_raises. by apply Hret.
Qed.

Lemma rollback_or_notice_returns T context cur nextTransition snapshot err st :
  abort_handler_returns nextTransition err →
  rollback_or_notice T context cur nextTransition snapshot err st =
  (Ok (), after_rollback_or_notice T context cur nextTransition snapshot err st).
Proof.
  intros Hret. rewrite rollback_or_notice_run. unfold after_rollback_or_notice.
  destruct (aborts nextTransition err) eqn:Ha; [|done].
  destruct (nextTransition ≫= onAbort) as [f|] eqn:Hf; [|done].
  cbv zeta. apply call_never_raises. by apply Hret.
Qed.

Lemma transition_catch_returns this T context cur nextTransition snapshot err st :
  invalid_handler_returns this err →
  abort_handler_returns nextTransition err →
  transition_catch this T context cur nextTransition snapshot err st =
  report_error this T context cur err
    (after_rollback_or_notice T context cur nextTransition snapshot err
       (after_report_invalid this T context cur err st)).
Proof.
  intros Hinv Hab. unfold transition_catch. unfold bind at 1.
  rewrite report_invalid_returns by done. unfold bind at 1.
  by rewrite rollback_or_notice_returns.
Qed.

(** ** Absorbing failures *)


(** ** Reporting failures *)

Lemma after_call_trace ev f st :
  st_trace (after_call ev f st) =
  st_trace st ++ ev :: map (λ s, Console s None) (res_out (f (st_world st))).
Proof. done. Qed.

Lemma after_report_invalid_trace this T context cur err st :
  ∃ evs, st_trace (after_report_invalid this T context cur err st) = st_trace st ++ evs ∧
         Forall before_onError evs ∧
         (∀ f, instanceof_InvalidTransition err = true → invalid_handler this = Some f →
               ∃ p, Called_onInvalidTransition p ∈ evs).
Proof.
  unfold after_report_invalid.
  destruct (instanceof_InvalidTransition err).
  - destruct (invalid_handler this) as [f|].
    + eexists. split; [apply after_call_trace|]. split; [solve_trace|].
      intros ? _ _. eexists. left.
    + exists []. rewrite app_nil_r. by split_and!.
  - exists []. rewrite app_nil_r. by split_and!.
Qed.

Lemma after_rollback_or_notice_trace T context cur nextTransition snapshot err st :
  ∃ evs, st_trace (after_rollback_or_notice T context cur nextTransition snapshot err st)
         = st_trace st ++ evs ∧
         Forall before_onError evs ∧
         (∀ f, aborts nextTransition err = true → nextTransition ≫= onAbort = Some f →
               ∃ p, Called_onAbort p ∈ evs) ∧
         (aborts nextTransition err = false → Console skipped_notice (Some err) ∈ evs).
Proof.
  unfold after_rollback_or_notice.
  destruct (aborts nextTransition err).
  - destruct (nextTransition ≫= onAbort) as [f|].
    + eexists. rewrite after_call_trace. cbn [st_trace st_world]. rewrite <-app_assoc.
      split; [done|]. split; [solve_trace|]. split; [|done].
      intros ? _ _. eexists. right. left.
    + eexists. split; [done|]. split; [solve_trace|]. by split.
  - eexists. split; [done|]. split; [solve_trace|]. split; [done|]. intros _. left.
Qed.

(** C7, as amended.  A failure [err] caught by [transition], with [onError]
    configured and the failure-specific handler ([onInvalidTransition] for an
    InvalidTransition signal, the edge's [onAbort] on the abort branch)
    returning normally: [onError] is called exactly once, with [err] and the
    payload [{from, to, message, timestamp, meta: context}]; the call of the
    specific handler is among the events before it, and only what [onError]
    itself prints comes after it. *)
Theorem onError_is_called_once_after_specific_handler
    this entity T context w tables e tbl row err st1 g :
  let key := nc_stateKey (config this) in
  let cur := default VUndef (e !! key) in
  objs w !! entity = Some e →
  tables !! nc_transitions (config this) = Some tbl →
  tbl !! to_property_key cur = Some row →
  transition_try this entity T context key cur row (row !! T) (State w tables [])
    = (Throw err, st1) →
  error_handler this = Some g →
  invalid_handler_returns this err →
  abort_handler_returns (row !! T) err →
  ∃ evs w2,
    let p := error_payload cur T (or_default (error_message err) "Aborting transition.")
                           (clock w2) context in
    st_trace (run_transition this entity T context w tables).2 =
      evs ++ Called_onError err p :: map (λ s, Console s None) (res_out (g err p w2)) ∧
    Forall before_onError evs ∧
    (∀ f, instanceof_InvalidTransition err = true → invalid_handler this = Some f →
          ∃ p', Called_onInvalidTransition p' ∈ evs) ∧
    (∀ f, aborts (row !! T) err = true → row !! T ≫= onAbort = Some f →
          ∃ p', Called_onAbort p' ∈ evs).
Proof.
  intros key cur Hobj Htbl Hrow Hbody Hg Hinv Hab.
  erewrite transition_declared_state by done. fold key cur.
  unfold try_catch. rewrite Hbody.
  rewrite transition_catch_returns by done.
  rewrite report_error_state. unfold after_report_error. rewrite Hg. cbv zeta.
  rewrite after_call_trace.
  destruct (transition_try_emits this entity T context key cur row (row !! T)
              (State w tables [])) as (evs0 & Htr0 & HP0 & _).
  rewrite Hbody in Htr0. simpl in Htr0.
  destruct (after_report_invalid_trace this T context cur err st1)
    as (evsA & HtrA & HPA & HinA).
  destruct (after_rollback_or_notice_trace T context cur (row !! T) (structuredClone e) err
              (after_report_invalid this T context cur err st1))
    as (evsB & HtrB & HPB & HinB & _).
  eexists _, _. split; [done|]. rewrite HtrB, HtrA, Htr0. split_and!.
  - repeat (apply Forall_app; split); [|done..].
    eapply Forall_impl; [exact HP0|]. by intros [].
  - intros f Hi Hf. destruct (HinA f Hi Hf) as [p' Hp']. exists p'.
    rewrite !elem_of_app. auto.
  - intros f Ha Hf. destruct (HinB f Ha Hf) as [p' Hp']. exists p'.
    rewrite !elem_of_app. auto.
Qed.

(** C9, as amended.  A failure [err] caught by [transition] that the abort
    branch does not handle (the edge is not abortable, or there is no edge,
    or [err] is not the AbortTransition signal), with [onInvalidTransition]
    returning normally when it runs: the notice
    ["Abort Transition triggered but skipped over transition {isAbortable:false} "]
    is logged with [err], whether or not an abort signal was raised. *)
Theorem unhandled_failure_logs_skipped_notice
    this entity T context w tables e tbl row err st1 :
  let key := nc_stateKey (config this) in
  let cur := default VUndef (e !! key) in
  objs w !! entity = Some e →
  tables !! nc_transitions (config this) = Some tbl →
  tbl !! to_property_key cur = Some row →
  transition_try this entity T context key cur row (row !! T) (State w tables [])
    = (Throw err, st1) →
  aborts (row !! T) err = false →
  invalid_handler_returns this err →
  Console skipped_notice (Some err)
    ∈ st_trace (run_transition this entity T context w tables).2.
Proof.
  intros key cur Hobj Htbl Hrow Hbody Hab Hinv.
  erewrite transition_declared_state by done. fold key cur.
  unfold try_catch. rewrite Hbody.
  rewrite transition_catch_returns; [|done|]; last first.
  { intros f p Ha. congruence. }
  rewrite report_error_state.
  destruct (after_rollback_or_notice_trace T context cur (row !! T) (structuredClone e) err
              (after_report_invalid this T context cur err st1))
    as (evsB & HtrB & _ & _ & Hnotice).
  unfold after_report_error. destruct (error_handler this) as [g|].
  - cbv zeta. rewrite after_call_trace, HtrB, !elem_of_app. auto.
  - rewrite HtrB, elem_of_app. auto.
Qed.

(** ** What the [catch] block does to the world *)

Section preserves.
Context (Q : world → Prop).

Lemma preserves_pure {A} (m : M A) :
  (∀ st, st_world (m st).2 = st_world st) → preserves Q m.
Proof. intros Hm st HQ. by rewrite Hm. Qed.

Lemma preserves_bind {A B} (m : M A) (k : A → M B) :
  preserves Q m → (∀ a, preserves Q (k a)) → preserves Q (bind m k).
Proof.
  intros Hm Hk st HQ. unfold bind. specialize (Hm st HQ).
  destruct (m st) as [[a|e] st1]; simpl in *; [by apply Hk|done].
Qed.

Lemma preserves_call ev f : keeps Q f → preserves Q (call ev f).
Proof. intros Hf st HQ. rewrite call_state. by apply Hf. Qed.

Lemma preserves_call_opt ev f :
  (∀ g, f = Some g → keeps Q g) → preserves Q (call_opt ev f).
Proof.
  intros Hf. destruct f as [g|]; simpl; [by apply preserves_call, Hf|].
  by apply preserves_pure.
Qed.

Lemma transition_catch_preserves this T context cur nextTransition snapshot err :
  (∀ f p, invalid_handler this = Some f → keeps Q (f p)) →
  (∀ f p, nextTransition ≫= onAbort = Some f → keeps Q (f p)) →
  (∀ f er p, error_handler this = Some f → keeps Q (f er p)) →
  preserves Q (transition_catch this T context cur nextTransition snapshot err).
Proof.
  intros Hinv Hab Herr. unfold transition_catch.
  apply preserves_bind; [|intros _; apply preserves_bind; [|intros _]].
  - unfold report_invalid. case_match; [|by apply preserves_pure].
    apply preserves_bind; [by apply preserves_pure|intros now].
    apply preserves_call_opt. fold (invalid_handler this).
    intros g Hg. destruct (invalid_handler this) as [f|] eqn:Hf; [|done].
    injection Hg as <-. by eapply Hinv.
  - unfold rollback_or_notice. case_match; [|by apply preserves_pure].
    apply preserves_bind; [by apply preserves_pure|intros _].
    apply preserves_bind; [by apply preserves_pure|intros now].
    apply preserves_call_opt.
    intros g Hg. destruct (nextTransition ≫= onAbort) as [f|] eqn:Hf; [|done].
    injection Hg as <-. by eapply Hab.
  - unfold report_error. fold (error_handler this).
    destruct (error_handler this) as [f|] eqn:Hf; [|by apply preserves_pure].
    apply preserves_bind; [by apply preserves_pure|intros now].
    by eapply preserves_call, Herr.
Qed.
End preserves.

(** An abortable edge whose [onBefore] raises the AbortTransition signal:
    apart from what [onAbort] and [onError] do, the world after the call is
    the world as [onBefore] left it.  The snapshot is not written back. *)
Lemma abort_leaves_world_of_onBefore
    this entity T context w tables e tbl S row edge f err (Q : world → Prop) :
  let key := nc_stateKey (config this) in
  objs w !! entity = Some e →
  e !! key = Some (VStr S) →
  tables !! nc_transitions (config this) = Some tbl →
  tbl !! S = Some row →
  row !! T = Some edge →
  onBefore edge = Some f →
  res_err (f entity w) = Some err →
  (∀ h p, invalid_handler this = Some h → keeps Q (h p)) →
  (∀ h p, onAbort edge = Some h → keeps Q (h p)) →
  (∀ h er p, error_handler this = Some h → keeps Q (h er p)) →
  Q (res_world (f entity w)) →
  Q (st_world (run_transition this entity T context w tables).2).
Proof.
  intros key Hobj HS Htbl Hrow Hedge Hf Herr Hinv Hab Hon HQ.
  subst key. set (key := nc_stateKey (config this)) in *.
  erewrite transition_declared_state; [|done..|by fold key; rewrite HS].
  fold key. rewrite HS. simpl. unfold try_catch.
  rewrite (transition_try_onBefore_raises _ _ _ _ _ _ _ edge f err) by done.
  apply transition_catch_preserves; try done.
  intros h p. rewrite Hedge. simpl. apply Hab.
Qed.

(** ** When [onAbort] fires *)

Lemma report_error_emits_not_onAbort this T context cur err :
  emits not_onAbort (report_error this T context cur err).
Proof.
  unfold report_error. case_match; [|apply emits_ret].
  apply emits_bind; [apply emits_new_Date|intros now]. by apply emits_call.
Qed.







(** * Further properties *)

(** ** A current state that the transitions record does not hold *)


(** ** The phases of a run *)

Lemma preTransition_emits_before this params :
  emits before_event (preTransition this params).
Proof.
  unfold preTransition. case_match.
  - apply emits_bind; [apply emits_new_Date|intros; apply emits_throw].
  - case_match; [|apply emits_throw].
    apply emits_bind; [by apply emits_call_opt|intros _].
    apply emits_bind; [apply emits_new_Date|intros now].
    by apply emits_Promise_all.
Qed.

(** The [try] block, by the outcome of the before-phase. *)
Lemma transition_try_pre this entity T context key cur (row : row) st :
  transition_try this entity T context key cur row (row !! T) st =
  match preTransition this (pre_params entity T context cur row) st with
  | (Ok _, st1) =>
      postTransition this (post_params entity T context key cur row)
        (State (set_field entity key (VStr T) (st_world st1)) (st_tables st1)
               (st_trace st1 ++ [Wrote entity key (VStr T)]))
  | (Throw err, st1) => (Throw err, st1)
  end.
Proof.
  unfold transition_try, pre_params, post_params. unfold bind at 1.
  destruct (preTransition _ _ st) as [[[]|err] st1]; [|done].
  unfold bind at 1. done.
Qed.

(** After the write, the check of [postTransition] passes and the
    after-phase runs. *)
Lemma postTransition_committed this entity T context key cur (row : row) edge st :
  row !! T = Some edge →
  state_is entity key (VStr T) (st_world st) →
  postTransition this (post_params entity T context key cur row) st =
  (call_opt (Called_onAfter entity) ((λ f : EventHandler, f entity) <$> onAfter edge) ;;
   let* now := new_Date in
   let payload := transition_payload cur T context now in
   Promise_all (λ i, Called_afterTransition i payload) 0
     (map (λ fn : TransitionHandler, fn payload)
          (default [] (nc_globalHooks (config this) ≫= afterTransition)))) st.
Proof.
  intros Hedge HT. unfold postTransition, post_params. simpl.
  unfold bind at 1, get_prop, bind at 1, read_obj, ret. simpl.
  unfold state_is in HT. rewrite HT. simpl.
  rewrite bool_decide_true by done. simpl. by rewrite Hedge.
Qed.

(** When the before-phase returns, the target is declared. *)
Lemma preTransition_returns_declared this entity T context cur (row : row) st st1 :
  preTransition this (pre_params entity T context cur row) st = (Ok (), st1) →
  is_Some (row !! T).
Proof.
  unfold preTransition, pre_params. simpl.
  destruct (row !! T) as [edge|]; [eauto|].
  rewrite bool_decide_false by (by intros [??]). done.
Qed.

(** The trace of the after-phase, once the write is done. *)
Lemma postTransition_trace this entity T context key cur (row : row) edge st :
  row !! T = Some edge →
  state_is entity key (VStr T) (st_world st) →
  ∃ evs,
    st_trace (postTransition this (post_params entity T context key cur row) st).2 =
      st_trace st ++ opt_call (onAfter edge) (Called_onAfter entity) ++ evs ∧
    Forall after_event evs.
Proof.
  intros Hedge HT. rewrite (postTransition_committed _ _ _ _ _ _ _ edge) by done.
  unfold bind at 1.
  assert (Hrest : ∀ st',
    ∃ evs, st_trace ((let* now := new_Date in
             Promise_all (λ i, Called_afterTransition i (transition_payload cur T context now)) 0
               (map (λ fn : TransitionHandler, fn (transition_payload cur T context now))
                    (default [] (nc_globalHooks (config this) ≫= afterTransition)))) st').2
           = st_trace st' ++ evs ∧ Forall after_event evs).
  { intros st'.
    match goal with |- context [(?m st').2] =>
      assert (Hm : emits after_event m) end.
    { apply emits_bind; [apply emits_new_Date|intros now]. by apply emits_Promise_all. }
    destruct (Hm st') as (evs & Htr & HP & _). eauto. }
  destruct (onAfter edge) as [f|]; cbn [fmap option_fmap option_map call_opt opt_call].
  - unfold call at 1. cbv zeta.
    destruct (res_err (f entity (st_world st))).
    + eexists. cbn [snd st_trace]. split; [done|]. by apply Forall_console.
    + match goal with |- context [bind ?m ?k ?st'] =>
        destruct (Hrest st') as (evs & Htr & HP) end.
      eexists. rewrite Htr. cbn [st_trace]. rewrite <-app_assoc. split; [done|].
      apply Forall_app. split; [by apply Forall_console|done].
  - unfold ret. destruct (Hrest st) as (evs & Htr & HP). eauto.
Qed.

(** The trace of a run: the events of the before-phase; then, when the
    before-phase returned, the write, the call of the edge's [onAfter] and the
    other events of the after-phase; then, when one of the phases raised, the
    events of the [catch] block. *)
Lemma run_trace this entity T context w tables e tbl (row : row) :
  let key := nc_stateKey (config this) in
  let cur := default VUndef (e !! key) in
  objs w !! entity = Some e →
  tables !! nc_transitions (config this) = Some tbl →
  tbl !! to_property_key cur = Some row →
  let pre := preTransition this (pre_params entity T context cur row) (State w tables []) in
  let tr := st_trace (run_transition this entity T context w tables).2 in
  ∃ evs_before evs_after evs_catch,
    st_trace pre.2 = evs_before ∧
    Forall before_event evs_before ∧ Forall after_event evs_after ∧
    Forall catch_event evs_catch ∧
    match pre.1 with
    | Ok _ =>
        ∃ edge, row !! T = Some edge ∧
          tr = evs_before ++ Wrote entity key (VStr T)
                 :: opt_call (onAfter edge) (Called_onAfter entity) ++ evs_after ++ evs_catch
    | Throw _ => tr = evs_before ++ evs_catch
    end.
Proof.
  intros key cur Hobj Htbl Hrow pre tr. subst tr.
  erewrite transition_declared_state by done. fold key cur.
  unfold try_catch. rewrite transition_try_pre. fold pre.
  destruct (preTransition_emits_before this (pre_params entity T context cur row)
              (State w tables [])) as (evs0 & Htr0 & HP0 & _).
  fold pre in Htr0. simpl in Htr0.
  destruct pre as [[[]|err] st1] eqn:Hpre; simpl in *.
  - destruct (preTransition_returns_declared _ _ _ _ _ _ _ _ Hpre) as [edge Hedge].
    match goal with |- context [postTransition ?a ?b ?st] =>
      destruct (postTransition_trace this entity T context key cur row edge st Hedge)
        as (evs1 & Htr1 & HP1); [apply set_field_lookup|];
      destruct (postTransition a b st) as [[[]|err] st2] end; simpl in *.
    + exists evs0, evs1, []. split_and!; try done.
      exists edge. split; [done|]. by rewrite Htr1, Htr0, app_nil_r, <-!app_assoc.
    + destruct (transition_catch_emits this T context cur (row !! T) (structuredClone e)
                  err st2) as (evs2 & Htr2 & HP2 & _).
      exists evs0, evs1, evs2. split_and!; try done.
      exists edge. split; [done|]. by rewrite Htr2, Htr1, Htr0, <-!app_assoc.
  - destruct (transition_catch_emits this T context cur (row !! T) (structuredClone e)
                err st1) as (evs2 & Htr2 & HP2 & _).
    exists evs0, [], evs2. rewrite Htr2, Htr0. by split_and!.
Qed.

(** [Hin : ev ∈ evs] where the events of [evs] are those of a phase
    ([HP : Forall P evs]) to which [ev] does not belong. *)
Ltac out_of_phase HP Hin :=
  exfalso; eapply Forall_forall in Hin; [|exact HP]; exact Hin.

(** X2.  The engine writes the state field when, and only when, the
    before-phase has returned: validation passed and no hook of the phase
    raised.  It writes nothing else: every write of a run is the write of the
    target into the state field of the entity. *)
Theorem state_is_written_iff_before_phase_returns
    this entity T context w tables e tbl (row : row) :
  let key := nc_stateKey (config this) in
  let cur := default VUndef (e !! key) in
  objs w !! entity = Some e →
  tables !! nc_transitions (config this) = Some tbl →
  tbl !! to_property_key cur = Some row →
  let tr := st_trace (run_transition this entity T context w tables).2 in
  (Wrote entity key (VStr T) ∈ tr ↔
   (preTransition this (pre_params entity T context cur row) (State w tables [])).1 = Ok ()) ∧
  (∀ l k v, Wrote l k v ∈ tr → l = entity ∧ k = key ∧ v = VStr T).
Proof.
  intros key cur Hobj Htbl Hrow tr.
  destruct (run_trace this entity T context w tables e tbl row Hobj Htbl Hrow)
    as (evs0 & evs1 & evs2 & _ & HP0 & HP1 & HP2 & Htr).
  fold key cur tr in Htr.
  assert (H0 : ∀ l k v, Wrote l k v ∉ evs0) by (intros l k v Hin; by out_of_phase HP0 Hin).
  assert (H1 : ∀ l k v, Wrote l k v ∉ evs1) by (intros l k v Hin; by out_of_phase HP1 Hin).
  assert (H2 : ∀ l k v, Wrote l k v ∉ evs2) by (intros l k v Hin; by out_of_phase HP2 Hin).
  destruct (preTransition _ _ _) as [[[]|err] st1]; simpl in Htr.
  - destruct Htr as (edge & Hedge & ->). split.
    + split; [done|]. intros _. apply elem_of_app. right. left.
    + intros l k v [Hin|[Heq|[Hin|[Hin|Hin]%elem_of_app]%elem_of_app]%elem_of_cons]%elem_of_app.
      * by destruct (H0 l k v).
      * by injection Heq as -> -> ->.
      * destruct (onAfter edge); simpl in Hin; [|by apply elem_of_nil in Hin].
        by apply list_elem_of_singleton in Hin.
      * by destruct (H1 l k v).
      * by destruct (H2 l k v).
  - rewrite Htr. split.
    + split; [|done]. intros [Hin|Hin]%elem_of_app.
      * by destruct (H0 entity key (VStr T)).
      * by destruct (H2 entity key (VStr T)).
    + intros l k v [Hin|Hin]%elem_of_app.
      * by destruct (H0 l k v).
      * by destruct (H2 l k v).
Qed.

(** X3.  The write is followed at once by the call of the edge's [onAfter]:
    the check that [postTransition] makes of the state field never fails in
    a run of [transition].  And [onAfter] is not called without the write. *)
Theorem onAfter_follows_the_write
    this entity T context w tables e tbl (row : row) edge f :
  let key := nc_stateKey (config this) in
  let cur := default VUndef (e !! key) in
  objs w !! entity = Some e →
  tables !! nc_transitions (config this) = Some tbl →
  tbl !! to_property_key cur = Some row →
  row !! T = Some edge →
  onAfter edge = Some f →
  let tr := st_trace (run_transition this entity T context w tables).2 in
  (Called_onAfter entity ∈ tr ↔ Wrote entity key (VStr T) ∈ tr) ∧
  (Wrote entity key (VStr T) ∈ tr →
   ∃ evs1 evs2, tr = evs1 ++ Wrote entity key (VStr T) :: Called_onAfter entity :: evs2).
Proof.
  intros key cur Hobj Htbl Hrow Hedge Hf tr.
  destruct (run_trace this entity T context w tables e tbl row Hobj Htbl Hrow)
    as (evs0 & evs1 & evs2 & _ & HP0 & HP1 & HP2 & Htr).
  fold key cur tr in Htr.
  destruct (preTransition _ _ _) as [[[]|err] st1]; simpl in Htr.
  - destruct Htr as (edge' & Hedge' & Htr). rewrite Hedge in Hedge'.
    injection Hedge' as <-. rewrite Hf in Htr. simpl in Htr. rewrite Htr. split.
    + split; intros _; apply elem_of_app; right; [left|right; left].
    + intros _. by eexists _, _.
  - rewrite Htr. split; [split|]; intros [Hin|Hin]%elem_of_app;
      first [by out_of_phase HP0 Hin|by out_of_phase HP2 Hin].
Qed.

(** ** The global hooks of a phase *)


Lemma preserves_Promise_all (Q : world → Prop) mk i hooks :
  Forall (keeps Q) hooks → preserves Q (Promise_all mk i hooks).
Proof.
  intros Hk. revert i. induction hooks as [|fn rest IH]; intros i st HQ; [done|].
  apply Forall_cons in Hk as [Hfn Hrest].
  cbn [Promise_all].
  pose proof (preserves_call Q (mk i) fn Hfn st HQ) as HQ1.
  destruct (call (mk i) fn st) as [r1 st1]. simpl in HQ1.
  specialize (IH Hrest (S i) st1 HQ1).
  by destruct (Promise_all mk (S i) rest st1) as [r2 st2].
Qed.

(** ** What a run does to the world *)

Lemma preTransition_preserves (Q : world → Prop) this params :
  before_hooks_keep Q this (pre_nextTransition params) (pre_entity params) →
  preserves Q (preTransition this params).
Proof.
  intros [Hedge Hglobal]. unfold preTransition. case_match.
  - apply preserves_bind; [by apply preserves_pure|intros now]. by apply preserves_pure.
  - destruct (pre_nextTransition params) as [nt|]; [|by apply preserves_pure].
    apply preserves_bind.
    { apply preserves_call_opt. intros g Hg.
      destruct (onBefore nt) as [f|] eqn:Hf; [|done]. injection Hg as <-. by apply Hedge. }
    intros _. apply preserves_bind; [by apply preserves_pure|intros now].
    apply preserves_Promise_all. apply Forall_fmap, Forall_forall.
    intros fn Hfn. by apply Hglobal.
Qed.

Lemma postTransition_preserves (Q : world → Prop) this params :
  after_hooks_keep Q this (post_nextTransition params) (post_entity params) →
  preserves Q (postTransition this params).
Proof.
  intros [Hedge Hglobal]. unfold postTransition.
  apply preserves_bind; [by apply preserves_pure|intros v].
  case_match; [by apply preserves_pure|].
  destruct (post_nextTransition params) as [nt|]; [|by apply preserves_pure].
  apply preserves_bind.
  { apply preserves_call_opt. intros g Hg.
    destruct (onAfter nt) as [f|] eqn:Hf; [|done]. injection Hg as <-. by apply Hedge. }
  intros _. apply preserves_bind; [by apply preserves_pure|intros now].
  apply preserves_Promise_all. apply Forall_fmap, Forall_forall.
  intros fn Hfn. by apply Hglobal.
Qed.

Lemma handlers_keep_catch (Q : world → Prop) this T context cur nextTransition snapshot err :
  handlers_keep Q this nextTransition →
  preserves Q (transition_catch this T context cur nextTransition snapshot err).
Proof. intros (? & ? & ?). by apply transition_catch_preserves. Qed.

(** X4.  Once the before-phase has returned, the write is never undone:
    whatever the hooks of the after-phase raise, what the write makes true
    of the world, and the after-hooks and the failure handlers leave true,
    is true when the call ends. *)
Theorem write_is_never_undone
    this entity T context w tables e tbl (row : row) st1 (Q : world → Prop) :
  let key := nc_stateKey (config this) in
  let cur := default VUndef (e !! key) in
  objs w !! entity = Some e →
  tables !! nc_transitions (config this) = Some tbl →
  tbl !! to_property_key cur = Some row →
  preTransition this (pre_params entity T context cur row) (State w tables [])
    = (Ok (), st1) →
  after_hooks_keep Q this (row !! T) entity →
  handlers_keep Q this (row !! T) →
  Q (set_field entity key (VStr T) (st_world st1)) →
  Q (st_world (run_transition this entity T context w tables).2).
Proof.
  intros key cur Hobj Htbl Hrow Hpre Hafter Hcatch HQ.
  erewrite transition_declared_state by done. fold key cur.
  unfold try_catch. rewrite transition_try_pre, Hpre.
  match goal with |- context [postTransition ?a ?b ?st] =>
    pose proof (postTransition_preserves Q a b Hafter st HQ) as Hpost;
    destruct (postTransition a b st) as [[[]|err] st2] end; simpl in *; [done|].
  by apply handlers_keep_catch.
Qed.

(** X5.  When the before-phase fails (validation, or a hook of the phase),
    the engine changes nothing: what the before-phase left true of the
    world, and the failure handlers leave true, is true when the call ends. *)
Theorem failed_before_phase_changes_nothing
    this entity T context w tables e tbl (row : row) err st1 (Q : world → Prop) :
  let key := nc_stateKey (config this) in
  let cur := default VUndef (e !! key) in
  objs w !! entity = Some e →
  tables !! nc_transitions (config this) = Some tbl →
  tbl !! to_property_key cur = Some row →
  preTransition this (pre_params entity T context cur row) (State w tables [])
    = (Throw err, st1) →
  handlers_keep Q this (row !! T) →
  Q (st_world st1) →
  Q (st_world (run_transition this entity T context w tables).2).
Proof.
  intros key cur Hobj Htbl Hrow Hpre Hcatch HQ.
  erewrite transition_declared_state by done. fold key cur.
  unfold try_catch. rewrite transition_try_pre, Hpre.
  by apply handlers_keep_catch.
Qed.

(** X6.  The only thing that [transition] itself changes is the state field
    of the entity it is given: a property of the world that every hook and
    handler of the run leaves true, and that the write of the state field of
    that entity leaves true, is left true by the call, whatever its outcome. *)
Theorem transition_changes_only_the_state_field
    this entity T context w tables e tbl (row : row) (Q : world → Prop) :
  let key := nc_stateKey (config this) in
  let cur := default VUndef (e !! key) in
  objs w !! entity = Some e →
  tables !! nc_transitions (config this) = Some tbl →
  tbl !! to_property_key cur = Some row →
  before_hooks_keep Q this (row !! T) entity →
  after_hooks_keep Q this (row !! T) entity →
  handlers_keep Q this (row !! T) →
  (∀ w', Q w' → Q (set_field entity key (VStr T) w')) →
  Q w →
  Q (st_world (run_transition this entity T context w tables).2).
Proof.
  intros key cur Hobj Htbl Hrow Hbefore Hafter Hcatch Hwrite HQ.
  erewrite transition_declared_state by done. fold key cur.
  unfold try_catch. rewrite transition_try_pre.
  pose proof (preTransition_preserves Q this (pre_params entity T context cur row)
                Hbefore (State w tables []) HQ) as Hpre.
  destruct (preTransition _ _ _) as [[[]|err] st1]; simpl in Hpre;
    [|by apply handlers_keep_catch].
  match goal with |- context [postTransition ?a ?b ?st] =>
    pose proof (postTransition_preserves Q a b Hafter st (Hwrite _ Hpre)) as Hpost;
    destruct (postTransition a b st) as [[[]|err] st2] end; simpl in *; [done|].
  by apply handlers_keep_catch.
Qed.


(** X8.  When the edge's [onBefore] raises, the before-phase ends there: the
    trace of the run is the call of [onBefore] followed by what the [catch]
    block does.  No global [beforeTransition] hook is called, nothing is
    written, and the after-phase does not run. *)
Theorem failed_onBefore_ends_the_before_phase
    this entity T context w tables e tbl (row : row) edge f err :
  let key := nc_stateKey (config this) in
  let cur := default VUndef (e !! key) in
  objs w !! entity = Some e →
  tables !! nc_transitions (config this) = Some tbl →
  tbl !! to_property_key cur = Some row →
  row !! T = Some edge →
  onBefore edge = Some f →
  res_err (f entity w) = Some err →
  ∃ evs,
    st_trace (run_transition this entity T context w tables).2 =
      Called_onBefore entity :: map (λ s, Console s None) (res_out (f entity w)) ++ evs ∧
    Forall catch_event evs.
Proof.
  intros key cur Hobj Htbl Hrow Hedge Hf Herr.
  erewrite transition_declared_state by done. fold key cur.
  unfold try_catch.
  rewrite (transition_try_onBefore_raises _ _ _ _ _ _ _ edge f err) by done.
  match goal with |- context [transition_catch ?a ?b ?c ?d ?e' ?s ?er ?st] =>
    destruct (transition_catch_emits a b c d e' s er st) as (evs & -> & HP & _) end.
  by exists evs.
Qed.

(** X9.  When the before-phase has returned and the edge's [onAfter] raises,
    the after-phase ends there: the trace of the run is that of the
    before-phase, the write, the call of [onAfter], and what the [catch]
    block does.  No global [afterTransition] hook is called. *)
Theorem failed_onAfter_ends_the_after_phase
    this entity T context w tables e tbl (row : row) edge st1 f err :
  let key := nc_stateKey (config this) in
  let cur := default VUndef (e !! key) in
  objs w !! entity = Some e →
  tables !! nc_transitions (config this) = Some tbl →
  tbl !! to_property_key cur = Some row →
  row !! T = Some edge →
  preTransition this (pre_params entity T context cur row) (State w tables [])
    = (Ok (), st1) →
  let w3 := set_field entity key (VStr T) (st_world st1) in
  onAfter edge = Some f →
  res_err (f entity w3) = Some err →
  ∃ evs,
    st_trace (run_transition this entity T context w tables).2 =
      st_trace st1 ++ Wrote entity key (VStr T) :: Called_onAfter entity
        :: map (λ s, Console s None) (res_out (f entity w3)) ++ evs ∧
    Forall catch_event evs.
Proof.
  intros key cur Hobj Htbl Hrow Hedge Hpre w3 Hf Herr.
  erewrite transition_declared_state by done. fold key cur.
  unfold try_catch. rewrite transition_try_pre, Hpre.
  rewrite (postTransition_committed _ _ _ _ _ _ _ edge); [|done|apply set_field_lookup].
  unfold bind at 1. rewrite Hf. cbn [fmap option_fmap option_map call_opt].
  rewrite (call_raises _ _ _ err) by done.
  match goal with |- context [transition_catch ?a ?b ?c ?d ?e' ?s ?er ?st] =>
    destruct (transition_catch_emits a b c d e' s er st) as (evs & -> & HP & _) end.
  exists evs. split; [|done]. cbn [after_call st_trace st_world]. fold w3.
  by rewrite <-!app_assoc.
Qed.

(** ** When [onInvalidTransition] fires *)

Lemma rest_of_catch_emits_not_onInvalidTransition T context cur nextTransition snapshot
    this err :
  emits not_onInvalidTransition
    (rollback_or_notice T context cur nextTransition snapshot err ;;
     report_error this T context cur err).
Proof.
  apply emits_bind; [|intros _].
  - unfold rollback_or_notice. case_match; [|by apply emits_emit].
    apply emits_bind; [by apply emits_emit|intros _].
    apply emits_bind; [apply emits_new_Date|intros now]. by apply emits_call_opt.
  - unfold report_error. case_match; [|apply emits_ret].
    apply emits_bind; [apply emits_new_Date|intros now]. by apply emits_call.
Qed.

(** X10.  [onInvalidTransition] is called when, and only when, a handler is
    configured and the error that the [try] block raised is an
    InvalidTransition signal: the engine's own, for an undeclared target, or
    one that a hook raised on a declared edge.  It is called with [{from, to,
    message, timestamp, meta: context}]. *)
Theorem onInvalidTransition_fires_iff_invalid_signal
    this entity T context w tables e tbl (row : row) :
  let key := nc_stateKey (config this) in
  let cur := default VUndef (e !! key) in
  objs w !! entity = Some e →
  tables !! nc_transitions (config this) = Some tbl →
  tbl !! to_property_key cur = Some row →
  ∀ p,
    Called_onInvalidTransition p ∈ st_trace (run_transition this entity T context w tables).2 ↔
    ∃ err st1 f,
      transition_try this entity T context key cur row (row !! T) (State w tables [])
        = (Throw err, st1) ∧
      instanceof_InvalidTransition err = true ∧
      invalid_handler this = Some f ∧
      p = error_payload cur T (or_default (error_message err) "Invalid transition.")
            (clock (st_world st1)) context.
Proof.
  intros key cur Hobj Htbl Hrow p.
  erewrite transition_declared_state by done. fold key cur.
  unfold try_catch.
  destruct (transition_try_emits this entity T context key cur row (row !! T)
              (State w tables [])) as (evs0 & Htr0 & HP0 & _).
  destruct (transition_try _ _ _ _ _ _ _ _ _) as [[[]|err] st1] eqn:Hbody;
    simpl in Htr0.
  { split; [|by intros (? & ? & ? & ? & _)].
    simpl. rewrite Htr0. intros Hin. by out_of_phase HP0 Hin. }
  unfold transition_catch. unfold bind at 1. rewrite report_invalid_run.
  pose proof (rest_of_catch_emits_not_onInvalidTransition T context cur (row !! T)
                (structuredClone e) this err) as Hrest.
  destruct (instanceof_InvalidTransition err) eqn:Hi;
    [destruct (invalid_handler this) as [f|] eqn:Hf|].
  - cbv zeta. unfold call at 1. cbv zeta.
    set (p0 := error_payload cur T (or_default (error_message err) "Invalid transition.")
                 (clock (st_world st1)) context).
    assert (Hiff : ∀ evs : list event,
      Forall not_onInvalidTransition evs →
      Called_onInvalidTransition p ∈
        (st_trace st1 ++ Called_onInvalidTransition p0
           :: map (λ s, Console s None) (res_out (f p0 (st_world st1)))) ++ evs ↔
      ∃ err' st1' (f' : InvalidTransitionHandler),
        (Throw (A:=unit) err, st1) = (Throw err', st1') ∧
        instanceof_InvalidTransition err' = true ∧ Some f = Some f' ∧
        p = error_payload cur T (or_default (error_message err') "Invalid transition.")
              (clock (st_world st1')) context).
    { intros evs HP. split.
      - intros [[Hin|[Heq|Hin]%elem_of_cons]%elem_of_app|Hin]%elem_of_app.
        + rewrite Htr0 in Hin. by out_of_phase HP0 Hin.
        + injection Heq as ->. by exists err, st1, f.
        + apply list_elem_of_fmap in Hin as (? & ? & _). done.
        + by out_of_phase HP Hin.
      - intros (err' & st1' & f' & [= <- <-] & _ & _ & ->).
        apply elem_of_app. left. apply elem_of_app. right. left. }
    destruct (res_err (f p0 (st_world st1))).
    + simpl. rewrite <-(app_nil_r (_ ++ _ :: _)). by apply Hiff.
    + match goal with |- context [bind ?m ?k ?st'] =>
        destruct (Hrest st') as (evs & -> & HP & _) end.
      by apply Hiff.
  - destruct (Hrest st1) as (evs & -> & HP & _). split.
    + rewrite Htr0. intros [Hin|Hin]%elem_of_app;
        [by out_of_phase HP0 Hin|by out_of_phase HP Hin].
    + by intros (? & ? & ? & _ & _ & ? & _).
  - destruct (Hrest st1) as (evs & -> & HP & _). split.
    + rewrite Htr0. intros [Hin|Hin]%elem_of_app;
        [by out_of_phase HP0 Hin|by out_of_phase HP Hin].
    + intros (? & ? & ? & [= <- <-] & ? & _). congruence.
Qed.

(** ** The message of an abort *)

Lemma new_AbortTransition_message params now :
  error_message (new_AbortTransition params now) = message_or params "Aborting transition".
Proof.
  unfold new_AbortTransition, message_or, or_default. simpl.
  by destruct (tp_message params) as [m|].
Qed.

(** The trace of a run in which the [onBefore] of an abortable edge raises
    the AbortTransition signal, with a handler [h] on the edge: the call of
    [onBefore], the rebinding, the call of [onAbort], what [h] prints, and
    then nothing that is a call of [onAbort]. *)
Lemma abort_in_onBefore_trace
    this entity T context w tables e tbl (row : row) edge f h err :
  let key := nc_stateKey (config this) in
  let cur := default VUndef (e !! key) in
  objs w !! entity = Some e →
  tables !! nc_transitions (config this) = Some tbl →
  tbl !! to_property_key cur = Some row →
  row !! T = Some edge →
  truthy (isAbortable edge) = true →
  onBefore edge = Some f →
  onAbort edge = Some h →
  res_err (f entity w) = Some err →
  instanceof_AbortTransition err = true →
  let w1 := res_world (f entity w) in
  let p := error_payload cur T (or_default (error_message err) "Aborting transition.")
             (clock w1) context in
  ∃ evs,
    st_trace (run_transition this entity T context w tables).2 =
      (Called_onBefore entity :: map (λ s, Console s None) (res_out (f entity w))) ++
      Rebound (structuredClone (structuredClone e)) ::
      Called_onAbort p :: map (λ s, Console s None) (res_out (h p w1)) ++ evs ∧
    Forall not_onAbort evs.
Proof.
  intros key cur Hobj Htbl Hrow Hedge Hab Hf Hh Herr Hinst w1 p.
  erewrite transition_declared_state by done. fold key cur.
  unfold try_catch.
  rewrite (transition_try_onBefore_raises _ _ _ _ _ _ _ edge f _) by done.
  unfold transition_catch. unfold bind at 1. rewrite report_invalid_run.
  replace (instanceof_InvalidTransition err) with false by (by destruct err).
  cbv iota. unfold bind at 1. rewrite rollback_or_notice_run.
  replace (aborts (row !! T) err) with true
    by (unfold aborts; rewrite Hedge; simpl; by rewrite Hab, Hinst).
  rewrite Hedge. simpl (Some edge ≫= onAbort). rewrite Hh. cbv zeta.
  cbn [after_call st_world st_trace]. fold w1 p.
  unfold call at 1. cbv zeta. cbn [st_world st_trace st_tables app].
  destruct (res_err (h p w1)).
  - exists []. cbn [snd st_trace]. rewrite app_nil_r, <-!app_assoc.
    split; [done|constructor].
  - match goal with |- context [report_error ?a ?b ?c ?d ?er ?st'] =>
      destruct (report_error_emits_not_onAbort a b c d er st') as (evs & -> & HP & _) end.
    exists evs. cbn [st_trace]. split; [|done].
    simpl. by rewrite <-!app_assoc.
Qed.

(** X11.  An abortable edge whose [onBefore] raises [new
    AbortTransition(params)]: the edge's [onAbort] is called, and only with
    the payload [{from, to, message, timestamp, meta: context}] whose
    message is [params.message], or ["Aborting transition"], the default of
    the error class, when [params] has no message or an empty one; the
    fallback of the [catch] block is not used. *)
Theorem onAbort_receives_the_abort_message
    this entity T context w tables e tbl (row : row) edge f h params now :
  let key := nc_stateKey (config this) in
  let cur := default VUndef (e !! key) in
  objs w !! entity = Some e →
  tables !! nc_transitions (config this) = Some tbl →
  tbl !! to_property_key cur = Some row →
  row !! T = Some edge →
  isAbortable edge = Some true →
  onBefore edge = Some f →
  onAbort edge = Some h →
  res_err (f entity w) = Some (new_AbortTransition params now) →
  let payload :=
    error_payload cur T (message_or params "Aborting transition")
                  (clock (res_world (f entity w))) context in
  ∀ p, Called_onAbort p ∈ st_trace (run_transition this entity T context w tables).2 ↔
       p = payload.
Proof.
  intros key cur Hobj Htbl Hrow Hedge Hab Hf Hh Herr payload p.
  destruct (abort_in_onBefore_trace this entity T context w tables e tbl row edge f h
              (new_AbortTransition params now))
    as (evs & -> & HP); [done..|by rewrite Hab|done|done|done|done|].
  rewrite new_AbortTransition_message.
  replace (or_default (message_or params "Aborting transition") "Aborting transition.")
    with (message_or params "Aborting transition"); last first.
  { unfold message_or, or_default. destruct (tp_message params) as [m|]; [|done].
    case_bool_decide; [done|]. by rewrite bool_decide_false. }
  fold key cur payload. split.
  - intros [[Heq|Hin]%elem_of_cons|[Heq|[Heq|[Hin|Hin]%elem_of_app]%elem_of_cons]%elem_of_cons]%elem_of_app.
    + done.
    + apply list_elem_of_fmap in Hin as (? & ? & _). done.
    + done.
    + by injection Heq.
    + apply list_elem_of_fmap in Hin as (? & ? & _). done.
    + by out_of_phase HP Hin.
  - intros ->. apply elem_of_app. right. right. left.
Qed.


(** ** Building a second engine *)
Lemma normalize_edge_idemp tK nS t :
  normalize_edge tK nS (normalize_edge tK nS t) = normalize_edge tK nS t.
Proof.
  unfold normalize_edge at 1. by rewrite lacks_onAbort_normalize_edge.
Qed.

Lemma normalize_idemp tbl : normalize (normalize tbl) = normalize tbl.
Proof.
  rewrite !normalize_visited. apply map_eq. intros tK. rewrite !visited_lookup.
  destruct (tbl !! tK) as [row|]; [|done]. simpl. f_equal.
  apply map_eq. intros nS. rewrite !(visited_row_lookup (λ _, true)).
  destruct (row !! nS) as [t|]; [|done]. simpl. by rewrite normalize_edge_idemp.
Qed.

(** X13.  Building a second engine from a configuration that has already been
    given to the constructor changes the transitions record no further: the
    handlers that the first construction installed are kept, and the two
    engines hold the same configuration. *)
Theorem constructor_twice cfg tables :
  constructor cfg (constructor cfg tables).2 = constructor cfg tables.
Proof.
  unfold constructor. cbn [snd]. f_equal.
  rewrite lookup_total_insert_eq, insert_insert_eq. by rewrite normalize_idemp.
Qed.

(** ** [initialState] *)
(** X14.  [initialState] is stored and never read: two configurations that
    differ in it only give engines whose [transition] does the same on every
    input. *)
Theorem initialState_is_not_enforced cfg cfg' tables entity T context st :
  stateKey cfg' = stateKey cfg →
  transitions cfg' = transitions cfg →
  globalHooks cfg' = globalHooks cfg →
  (constructor cfg' tables).2 = (constructor cfg tables).2 ∧
  transition (constructor cfg' tables).1 entity T context st =
  transition (constructor cfg tables).1 entity T context st.
Proof.
  destruct cfg, cfg'. simpl. intros -> -> ->. done.
Qed.

(** ** One transition after the other *)








(** ** The listener registry *)








Lemma forEach_app fns1 fns2 w :
  Registry.forEach (fns1 ++ fns2) w =
  let r := Registry.forEach fns1 w in
  match res_err r with
  | Some e => r
  | None =>
      let r' := Registry.forEach fns2 (res_world r) in
      Result (res_world r') (res_out r ++ res_out r') (res_err r')
  end.
Proof.
  revert w. induction fns1 as [|fn fns1 IH]; intros w; simpl.
  - by destruct (Registry.forEach fns2 w).
  - destruct (res_err (fn w)) eqn:Herr; [by rewrite Herr|].
    rewrite IH. cbv zeta. simpl.
    destruct (res_err (Registry.forEach fns1 (res_world (fn w)))) eqn:Herr1; simpl.
    + by rewrite Herr1.
    + by rewrite app_assoc.
Qed.

(** X18.  A listener that throws ends [emit]: the listeners registered after
    it are not called, and [emit] throws what it threw. *)
Theorem emit_stops_at_throwing_listener (handlers : Registry.registry) event
    before fn after w e :
  handlers !! event = Some (before ++ fn :: after) →
  let r := Registry.forEach before w in
  res_err r = None →
  res_err (fn (res_world r)) = Some e →
  Registry.emit handlers event w =
  Result (res_world (fn (res_world r))) (res_out r ++ res_out (fn (res_world r))) (Some e).
Proof.
  intros Hfns r Hbefore Hfn. unfold Registry.emit. rewrite Hfns, forEach_app.
  cbv zeta. fold r. rewrite Hbefore. simpl. rewrite Hfn. simpl.
  by destruct (fn (res_world r)); simpl in *; subst.
Qed.

(** * The processor at work *)

Import Processor.


(** C3: the code at the failing input.  The abortable edge
    [idle → running] of an unpaid processor: [onBefore] writes the [note]
    field, then raises the AbortTransition signal.  The engine rebinds its
    local variable to a clone of the snapshot and calls [onAbort] and
    [onError]; the caller's processor keeps the note that the hook wrote,
    so it is not equal to the snapshot. *)
Lemma abort_keeps_side_mutation :
  let r := run hooks "idle" false "running" in
  r.1 = Ok () ∧
  calls (st_trace r.2) =
    [ Called_onBefore 7;
      Rebound (processor "idle" false);
      Called_onAbort (ep "idle" "running" "Payment required");
      Called_onError (abort "Payment required" (world_of "idle" false))
                     (ep "idle" "running" "Payment required") ] ∧
  status_after r = Some (VStr "idle") ∧
  processor "idle" false !! "note" = Some (VStr "original") ∧
  note_after r = Some (VStr "modified") ∧
  objs (st_world r.2) !! 7 ≠ Some (structuredClone (processor "idle" false)).
Proof.
  split_and!; [by vm_compute..|].
  intros Heq. apply (f_equal (λ o, o ≫= (.!! "note"))) in Heq.
  vm_compute in Heq. discriminate Heq.
Qed.


(** C7, as stated, fails: an invalid target with an [onInvalidTransition]
    that throws.  [onError] is configured and is never called; the call
    rejects.  Nor is it called for the TypeError of a current state that is
    not a key of the transitions record, which is raised before the [try]
    block. *)
Lemma onError_skipped_when_specific_handler_throws :
  let r := run hooks_broken_invalid "idle" true "nope" in
  is_Some (error_handler (machine hooks_broken_invalid)) ∧
  (try_of hooks_broken_invalid "idle" true "nope").1 =
    Throw (invalid_target_error (VStr "idle") "nope" None 1000) ∧
  st_trace r.2 = [Called_onInvalidTransition (ep "idle" "nope" "Invalid Transaction")] ∧
  r.1 = Throw (Error "handler failed") ∧
  is_Some (error_handler (machine hooks)) ∧
  st_trace (run hooks "ghost" true "running").2 = [].
Proof.
  split_and!; try (by vm_compute).
  - by eexists.
  - by eexists.
Qed.

(** C9, as stated, fails: the same run.  The failure is an
    InvalidTransition signal, the abort branch does not handle it, and the
    notice is not logged, because [onInvalidTransition] threw first.  Nor is
    anything logged for the TypeError raised before the [try] block. *)
Lemma notice_skipped_when_onInvalidTransition_throws :
  let r := run hooks_broken_invalid "idle" true "nope" in
  let err := invalid_target_error (VStr "idle") "nope" None 1000 in
  (try_of hooks_broken_invalid "idle" true "nope").1 = Throw err ∧
  aborts (engine_row "idle" !! "nope") err = false ∧
  (∀ arg, Console skipped_notice arg ∉ st_trace r.2) ∧
  (∀ arg, Console skipped_notice arg ∉ st_trace (run hooks "ghost" true "running").2).
Proof.
  split_and!; [by vm_compute..| |].
  - intros arg Hin. vm_compute in Hin.
    apply elem_of_cons in Hin as [?|?%elem_of_nil]; done.
  - intros arg Hin. vm_compute in Hin. by apply elem_of_nil in Hin.
Qed.

(** ** The theorems at work on the processor *)

(** [H : hook = Some f] where the hook of the configuration is [g]. *)
Ltac hook_is H g :=
  match type of H with _ = Some ?f => change (Some g = Some f) in H end;
  injection H as <-.




(** C6 on the edge [idle → stopped], which is not abortable. *)
Lemma ignored_abort_is_logged_and_reported_witness :
  ∃ r st',
    run hooks "idle" true "stopped" = (r, st') ∧
    (∀ p, Called_onAbort p ∉ st_trace st') ∧
    (∀ clone, Rebound clone ∉ st_trace st').
Proof.
  destruct (ignored_abort_is_logged_and_reported (machine hooks) 7 "stopped" None
              (world_of "idle" true) tables (processor "idle" true)
              (normalize processor_transitions) "idle" (engine_row "idle")
              (engine_edge "idle" "stopped") too_late
              (abort "Too late" (world_of "idle" true)))
    as (r & st' & Hrun & _ & HnoAbort & HnoRebound & _); [reflexivity..|].
  exists r, st'. split_and!; [exact Hrun|exact HnoAbort|exact HnoRebound].
Defined.

(** C7, as amended, on an invalid target. *)
Lemma onError_is_called_once_after_specific_handler_witness :
  ∃ evs p out,
    st_trace (run hooks "idle" true "nope").2 =
      evs ++ Called_onError (invalid_target_error (VStr "idle") "nope" None 1000) p
          :: map (λ s, Console s None) out ∧
    Forall before_onError evs ∧
    ∃ p', Called_onInvalidTransition p' ∈ evs.
Proof.
  destruct (onError_is_called_once_after_specific_handler (machine hooks) 7 "nope" None
              (world_of "idle" true) tables (processor "idle" true)
              (normalize processor_transitions) (engine_row "idle")
              (invalid_target_error (VStr "idle") "nope" None 1000)
              (try_of hooks "idle" true "nope").2 (λ _, say "error"))
    as (evs & w2 & Htrace & Hbefore & Hinvalid & _).
  - reflexivity.
  - reflexivity.
  - reflexivity.
  - reflexivity.
  - reflexivity.
  - intros f p _ Hf. hook_is Hf (say (A:=ErrorPayload) "invalid"). by intros w.
  - intros f p Ha. change (false = true) in Ha. discriminate Ha.
  - eexists evs, _, _. split_and!; [exact Htrace|exact Hbefore|].
    exact (Hinvalid (say "invalid") eq_refl eq_refl).
Defined.

(** C9, as amended, on an invalid target: no abort signal, and the notice
    is logged. *)
Lemma unhandled_failure_logs_skipped_notice_witness :
  Console skipped_notice (Some (invalid_target_error (VStr "idle") "nope" None 1000))
    ∈ st_trace (run hooks "idle" true "nope").2.
Proof.
  apply (unhandled_failure_logs_skipped_notice (machine hooks) 7 "nope" None
           (world_of "idle" true) tables (processor "idle" true)
           (normalize processor_transitions) (engine_row "idle")
           (invalid_target_error (VStr "idle") "nope" None 1000)
           (try_of hooks "idle" true "nope").2).
  - reflexivity.
  - reflexivity.
  - reflexivity.
  - reflexivity.
  - reflexivity.
  - intros f p _ Hf. hook_is Hf (say (A:=ErrorPayload) "invalid"). by intros w.
Defined.



(** C10 on the processor's configuration. *)
Lemma constructor_mutates_caller_config_witness :
  nc_transitions (config (machine hooks)) = transitions (processor_config hooks) ∧
  tables !! 0 ≠ caller_tables !! 0.
Proof.
  destruct (constructor_mutates_caller_config (processor_config hooks) caller_tables
              processor_transitions "idle" (caller_row "idle") "running"
              (caller_edge "idle" "running"))
    as (Href & _ & Hchanged & _); [reflexivity..|].
  split; [exact Href|exact Hchanged].
Defined.

(** * The further properties at work *)

Import Workshop.


(** The unpaid processor: the before-phase fails and nothing is written. *)
Lemma state_is_written_iff_before_phase_returns_witness :
  Wrote 7 "status" (VStr "running") ∉ st_trace (run hooks "idle" false "running").2.
Proof.
  destruct (state_is_written_iff_before_phase_returns (machine hooks) 7 "running" None
              (world_of "idle" false) tables (processor "idle" false)
              (normalize processor_transitions) (engine_row "idle"))
    as [Hiff _].
  - reflexivity.
  - reflexivity.
  - reflexivity.
  - intros Hin. apply (proj1 Hiff) in Hin. vm_compute in Hin. discriminate Hin.
Defined.

(** [running → completed]: the write, then [onAfter]. *)
Lemma onAfter_follows_the_write_witness :
  Called_onAfter 7 ∈ st_trace (run hooks "running" true "completed").2 ↔
  Wrote 7 "status" (VStr "completed") ∈ st_trace (run hooks "running" true "completed").2.
Proof.
  destruct (onAfter_follows_the_write (machine hooks) 7 "completed" None
              (world_of "running" true) tables (processor "running" true)
              (normalize processor_transitions) (engine_row "running")
              (engine_edge "running" "completed") (say "done"))
    as [Hiff _].
  - reflexivity.
  - reflexivity.
  - reflexivity.
  - reflexivity.
  - reflexivity.
  - exact Hiff.
Defined.

(** [Hfn : fn ∈ hooks] where the array of the configuration is [[g]]. *)
Ltac hook_in Hfn g :=
  match type of Hfn with ?fn ∈ _ => change (fn ∈ [g]) in Hfn end;
  apply list_elem_of_singleton in Hfn as ->.

(** [running → failed]: [onAfter] raises the AbortTransition signal on an
    abortable edge, and the state stays ["failed"]. *)
Lemma write_is_never_undone_witness :
  state_is 7 "status" (VStr "failed") (st_world (run hooks "running" true "failed").2).
Proof.
  apply (write_is_never_undone (machine hooks) 7 "failed" None
           (world_of "running" true) tables (processor "running" true)
           (normalize processor_transitions) (engine_row "running")
           (preTransition (machine hooks)
              (pre_params 7 "failed" None (VStr "running") (engine_row "running"))
              (State (world_of "running" true) tables [])).2
           (state_is 7 "status" (VStr "failed"))).
  - reflexivity.
  - reflexivity.
  - reflexivity.
  - reflexivity.
  - split.
    + intros f Hf. hook_is Hf too_late. by intros w.
    + intros fn p Hfn. hook_in Hfn (λ _ : TransitionPayload, say "after" ()). by intros w.
  - split_and!.
    + intros f p Hf. hook_is Hf (say (A:=ErrorPayload) "invalid"). by intros w.
    + intros f p Hf. hook_is Hf (say (A:=ErrorPayload) "aborted"). by intros w.
    + intros f er p Hf. hook_is Hf (λ _ : error, say (A:=ErrorPayload) "error"). by intros w.
  - vm_compute. reflexivity.
Defined.

(** The unpaid processor: the state field is what [onBefore] left. *)
Lemma failed_before_phase_changes_nothing_witness :
  state_is 7 "status" (VStr "idle") (st_world (run hooks "idle" false "running").2).
Proof.
  apply (failed_before_phase_changes_nothing (machine hooks) 7 "running" None
           (world_of "idle" false) tables (processor "idle" false)
           (normalize processor_transitions) (engine_row "idle")
           (abort "Payment required" (world_of "idle" false))
           (preTransition (machine hooks)
              (pre_params 7 "running" None (VStr "idle") (engine_row "idle"))
              (State (world_of "idle" false) tables [])).2
           (state_is 7 "status" (VStr "idle"))).
  - reflexivity.
  - reflexivity.
  - reflexivity.
  - reflexivity.
  - split_and!.
    + intros f p Hf. hook_is Hf (say (A:=ErrorPayload) "invalid"). by intros w.
    + intros f p Hf. hook_is Hf (default_onAbort "idle" "running"). by intros w.
    + intros f er p Hf. hook_is Hf (λ _ : error, say (A:=ErrorPayload) "error"). by intros w.
  - vm_compute. reflexivity.
Defined.

(** The paid processor, [idle → running]: the [name] field is left alone. *)
Lemma transition_changes_only_the_state_field_witness :
  (objs (st_world (run hooks "idle" true "running").2) !!! 7) !! "name" = Some (VStr "P1").
Proof.
  apply (transition_changes_only_the_state_field (machine hooks) 7 "running" None
           (world_of "idle" true) tables (processor "idle" true)
           (normalize processor_transitions) (engine_row "idle")
           (λ w, (objs w !!! 7) !! "name" = Some (VStr "P1"))).
  - reflexivity.
  - reflexivity.
  - reflexivity.
  - split.
    + intros f Hf. hook_is Hf require_payment. intros w Hw.
      unfold require_payment.
      assert (Hnote : (objs (set_field 7 "note" (VStr "modified") w) !!! 7) !! "name"
                      = Some (VStr "P1")).
      { simpl. by rewrite lookup_total_insert_eq, lookup_insert_ne. }
      by repeat case_match.
    + intros fn p Hfn. hook_in Hfn (λ _ : TransitionPayload, say "before" ()). by intros w.
  - split.
    + intros f Hf. change (None = Some f) in Hf. discriminate Hf.
    + intros fn p Hfn. hook_in Hfn (λ _ : TransitionPayload, say "after" ()). by intros w.
  - split_and!.
    + intros f p Hf. hook_is Hf (say (A:=ErrorPayload) "invalid"). by intros w.
    + intros f p Hf. hook_is Hf (default_onAbort "idle" "running"). by intros w.
    + intros f er p Hf. hook_is Hf (λ _ : error, say (A:=ErrorPayload) "error"). by intros w.
  - intros w Hw. simpl. by rewrite lookup_total_insert_eq, lookup_insert_ne.
  - reflexivity.
Defined.


(** The unpaid processor: the trace begins with the call of [onBefore], and
    the rest is the [catch] block's. *)
Lemma failed_onBefore_ends_the_before_phase_witness :
  ∃ evs,
    st_trace (run hooks "idle" false "running").2 = Called_onBefore 7 :: evs ∧
    Forall catch_event evs.
Proof.
  destruct (failed_onBefore_ends_the_before_phase (machine hooks) 7 "running" None
              (world_of "idle" false) tables (processor "idle" false)
              (normalize processor_transitions) (engine_row "idle")
              (engine_edge "idle" "running") require_payment
              (abort "Payment required" (world_of "idle" false)))
    as (evs & Htr & Hevs).
  - reflexivity.
  - reflexivity.
  - reflexivity.
  - reflexivity.
  - reflexivity.
  - vm_compute. reflexivity.
  - exists evs. split; [exact Htr|exact Hevs].
Defined.

(** [running → failed]: [onAfter] raises after the write. *)
Lemma failed_onAfter_ends_the_after_phase_witness :
  ∃ evs,
    calls (st_trace (run hooks "running" true "failed").2) =
      Called_beforeTransition 0 (tp "running" "failed")
        :: Wrote 7 "status" (VStr "failed") :: Called_onAfter 7 :: calls evs ∧
    Forall catch_event evs.
Proof.
  destruct (failed_onAfter_ends_the_after_phase (machine hooks) 7 "failed" None
              (world_of "running" true) tables (processor "running" true)
              (normalize processor_transitions) (engine_row "running")
              (engine_edge "running" "failed")
              (preTransition (machine hooks)
                 (pre_params 7 "failed" None (VStr "running") (engine_row "running"))
                 (State (world_of "running" true) tables [])).2
              too_late (abort "Too late" (world_of "running" true)))
    as (evs & Htr & Hevs).
  - reflexivity.
  - reflexivity.
  - reflexivity.
  - reflexivity.
  - reflexivity.
  - reflexivity.
  - reflexivity.
  - exists evs. split; [|exact Hevs]. unfold run. rewrite Htr. reflexivity.
Defined.

(** The target ["nope"], which [idle] does not declare. *)
Lemma onInvalidTransition_fires_iff_invalid_signal_witness :
  Called_onInvalidTransition (ep "idle" "nope" "Invalid Transaction")
    ∈ st_trace (run hooks "idle" true "nope").2.
Proof.
  apply (proj2 (onInvalidTransition_fires_iff_invalid_signal (machine hooks) 7 "nope" None
                  (world_of "idle" true) tables (processor "idle" true)
                  (normalize processor_transitions) (engine_row "idle")
                  eq_refl eq_refl eq_refl (ep "idle" "nope" "Invalid Transaction"))).
  exists (invalid_target_error (VStr "idle") "nope" None 1000),
         (try_of hooks "idle" true "nope").2, (say "invalid").
  split_and!; reflexivity.
Defined.



(** [crash] throws: the second [chime] is not called, and ["ring"] is printed
    once. *)
Lemma emit_stops_at_throwing_listener_witness :
  Registry.emit (registered registrations) "done" (world_of "idle" true) =
  Result (world_of "idle" true) ["ring"] (Some (Error "listener failed")).
Proof.
  apply (emit_stops_at_throwing_listener (registered registrations) "done"
           [chime] crash [chime] (world_of "idle" true) (Error "listener failed")).
  - reflexivity.
  - reflexivity.
  - reflexivity.
Defined.


(** The unpaid processor: [onAbort] gets the message of the signal. *)
Lemma onAbort_receives_the_abort_message_witness :
  Called_onAbort (ep "idle" "running" "Payment required")
    ∈ st_trace (run hooks "idle" false "running").2.
Proof.
  apply (proj2 (onAbort_receives_the_abort_message (machine hooks) 7 "running" None
                  (world_of "idle" false) tables (processor "idle" false)
                  (normalize processor_transitions) (engine_row "idle")
                  (engine_edge "idle" "running") require_payment
                  (default_onAbort "idle" "running")
                  {| tp_from := None; tp_to := None; tp_message := Some "Payment required";
                     tp_timestamp := None; tp_meta := None |} 1000
                  eq_refl eq_refl eq_refl eq_refl eq_refl eq_refl eq_refl eq_refl
                  (ep "idle" "running" "Payment required"))).
  reflexivity.
Defined.


(** The processor's configuration with another [initialState]. *)
Lemma initialState_is_not_enforced_witness :
  transition
    (constructor {| initialState := "completed"; stateKey := None; transitions := 0;
                    globalHooks := Some hooks |} caller_tables).1
    7 "running" None (State (world_of "idle" true) tables []) =
  run hooks "idle" true "running".
Proof.
  apply (initialState_is_not_enforced (processor_config hooks)
           {| initialState := "completed"; stateKey := None; transitions := 0;
              globalHooks := Some hooks |}
           caller_tables 7 "running" None (State (world_of "idle" true) tables [])
           eq_refl eq_refl eq_refl).
Defined.
